(** * Signaling server of the random video chat: matchmaking and negotiation

    A shallow embedding of [server/src/server.ts].  The server keeps three
    process-local tables ([rooms], [transports], [peerRooms]), a Redis list
    shared by all replicas ([waiting_pool]) and talks to a mediasoup worker.
    Every Socket.IO handler is a function from the state to the new state and
    the list of messages it sends.  The [join] handler is also given as a
    sequence of atomic Redis commands, so that interleavings of several
    handlers can be run. *)

From stdpp Require Import gmap strings list fin_maps pretty.

Set Warnings "-clear-no-such-hyp".

Open Scope string_scope.
Open Scope list_scope.
Open Scope nat_scope.

(** ** Media types exchanged with the relay engine *)

Inductive MediaKind := audio | video.

#[global] Instance MediaKind_eq_dec : EqDecision MediaKind.
Proof. solve_decision. Defined.

Record Codec := mkCodec {
  codec_kind : MediaKind;
  mimeType : string;
  clockRate : N;
  channels : option N
}.

#[global] Instance Codec_eq_dec : EqDecision Codec.
Proof. solve_decision. Defined.

(** The codec list handed to [worker.createRouter] in the [join] handler. *)
Definition mediaCodecs : list Codec :=
  [ mkCodec audio "audio/opus" 48000 (Some 2%N);
    mkCodec video "video/VP8" 90000 None ].

(** Handles returned by the engine.  Only the properties the server reads
    are kept. *)
Record Router := mkRouter {
  router_id : string;
  rtpCapabilities : list Codec
}.

Record AppData := mkAppData {
  socketId : string;
  isProducer : bool
}.

Record WebRtcTransport := mkTransport {
  transport_id : string;
  iceParameters : string;
  iceCandidates : string;
  dtlsParameters : string;
  appData : AppData
}.

Record Producer := mkProducer { producer_id : string }.

Record Consumer := mkConsumer {
  consumer_id : string;
  consumer_kind : MediaKind;
  consumer_rtpParameters : list Codec
}.

(** What the engine knows about a producer: the router it lives in, its
    kind and its codec. *)
Record ProducerInfo := mkProducerInfo {
  p_router : string;
  p_kind : MediaKind;
  p_codec : Codec
}.

(** ** JavaScript exceptions *)

Inductive Thrown :=
| JsError (message : string)   (* an [Error] object *)
| NotAnError.                  (* any other thrown value *)

(** [err instanceof Error ? err.message : 'Unknown error'] *)
Definition err_message (e : Thrown) : string :=
  match e with
  | JsError m => m
  | NotAnError => "Unknown error"
  end.

Inductive Result (A : Type) :=
| Ok (a : A)
| Throw (e : Thrown).
Arguments Ok {A} a.
Arguments Throw {A} e.

(** ** The media relay engine (mediasoup), an external collaborator

    The server only calls the operations below.  The engine decides the
    identifiers it hands out and whether a call throws; the three laws are
    the part of its documented contract the server relies on. *)
Class Engine := {
  worker : Type;
  worker_init : worker;
  createRouter : worker -> list Codec -> Result (Router * worker);
  createWebRtcTransport :
    worker -> Router -> AppData -> Result (WebRtcTransport * worker);
  connect : worker -> WebRtcTransport -> string -> Result worker;
  produce :
    worker -> WebRtcTransport -> MediaKind -> list Codec ->
    Result (Producer * worker);
  consume :
    worker -> WebRtcTransport -> string -> list Codec -> bool ->
    Result (Consumer * worker);
  (* observations *)
  producer_info : worker -> string -> option ProducerInfo;
  consumer_paused : worker -> string -> option bool;
  (* contract *)
  createWebRtcTransport_appData : forall w r ad t w',
    createWebRtcTransport w r ad = Ok (t, w') -> appData t = ad;
  produce_registers : forall w t k rtp p w',
    produce w t k rtp = Ok (p, w') ->
    exists i, producer_info w' (producer_id p) = Some i /\ p_kind i = k;
  consume_kind : forall w t pid caps paused c w',
    consume w t pid caps paused = Ok (c, w') ->
    (exists i, producer_info w pid = Some i /\ p_kind i = consumer_kind c)
    /\ consumer_paused w' (consumer_id c) = Some paused
}.

(** [router.canConsume({ producerId, rtpCapabilities })]: the producer must
    live in this router and its codec must be among the capabilities. *)
Definition canConsume `{Engine} (w : worker) (r : Router)
    (producerId : string) (caps : list Codec) : bool :=
  match producer_info w producerId with
  | Some i =>
      bool_decide (p_router i = router_id r) && bool_decide (p_codec i ∈ caps)
  | None => false
  end.

(** ** The Redis list commands used on [waiting_pool]

    The list is kept head first: [lPush] adds at the head (left), [rPop]
    takes from the tail (right). *)
Module Redis.

Definition lPush (v : string) (l : list string) : list string := v :: l.

Definition lLen (l : list string) : nat := length l.

Fixpoint rPop (l : list string) : option string * list string :=
  match l with
  | [] => (None, [])
  | x :: l' =>
      match l' with
      | [] => (Some x, [])
      | _ :: _ => let '(r, l'') := rPop l' in (r, x :: l'')
      end
  end.

(** Removes the first [n] occurrences of [v], scanning from the head. *)
Fixpoint lRem_first (n : nat) (v : string) (l : list string) : list string :=
  match l with
  | [] => []
  | x :: l' =>
      match n with
      | 0 => l
      | S n' =>
          if decide (x = v) then lRem_first n' v l'
          else x :: lRem_first n v l'
      end
  end.

(** [LREM key count value] for a count that is not negative; a count of
    zero removes every occurrence. *)
Definition lRem (count : nat) (v : string) (l : list string) : list string :=
  match count with
  | 0 => filter (fun x => x <> v) l
  | S _ => lRem_first count v l
  end.

End Redis.

(** ** The insertion-ordered [transports] map

  [Array.from(transports.values()).find(...)] in the [consume] handler
  depends on the insertion order of the JavaScript [Map], so this table is
  an association list, oldest entry first. *)
Module JsMap.

Definition t := list (string * WebRtcTransport).

Fixpoint get (k : string) (m : t) : option WebRtcTransport :=
  match m with
  | [] => None
  | (k', v) :: m' => if decide (k' = k) then Some v else get k m'
  end.

(** [Map.prototype.set]: an existing key keeps its position. *)
Fixpoint set (k : string) (v : WebRtcTransport) (m : t) : t :=
  match m with
  | [] => [(k, v)]
  | (k', v') :: m' =>
      if decide (k' = k) then (k, v) :: m' else (k', v') :: set k v m'
  end.

Fixpoint delete (k : string) (m : t) : t :=
  match m with
  | [] => []
  | (k', v') :: m' =>
      if decide (k' = k) then m' else (k', v') :: delete k m'
  end.

Definition values (m : t) : list WebRtcTransport := map snd m.

End JsMap.

(** ** Messages sent by the server *)

Inductive Payload :=
| PStatusWaiting                                   (* { status: 'waiting' } *)
| PRtpCapabilities (caps : list Codec)             (* router.rtpCapabilities *)
| PTransport (id ice candidates dtls : string)     (* { id, iceParameters, ... } *)
| PError (message : string)                        (* { error: message } *)
| PConnected                                       (* { connected: true } *)
| PId (id : string)                                (* { id: producer.id } *)
| PConsumer (id producerId : string) (kind : MediaKind)
            (rtpParameters : list Codec).

Inductive Event :=
| EvMatched (roomName : string)        (* 'matched', { roomName } *)
| EvNewProducer (producerId : string)  (* 'new-producer', { producerId } *)
| EvPeerDisconnected.                  (* 'peer-disconnected' *)

Inductive Output :=
| Reply (p : Payload)
    (* [callback(p)] on the originating request *)
| EmitTo (room : string) (except : option string) (ev : Event)
    (* [io.to(room).emit(ev)], or [socket.to(room).emit(ev)] when [except]
       is the sending socket *)
| Unhandled (e : Thrown).
    (* the handler's promise rejects; no callback is invoked *)

#[global] Instance Payload_eq_dec : EqDecision Payload.
Proof. solve_decision. Defined.
#[global] Instance Event_eq_dec : EqDecision Event.
Proof. solve_decision. Defined.

Definition replies (outs : list Output) : list Payload :=
  omap (fun o => match o with Reply p => Some p | _ => None end) outs.

Definition emissions (outs : list Output)
    : list (string * option string * Event) :=
  omap (fun o => match o with
                 | EmitTo r x ev => Some (r, x, ev)
                 | _ => None
                 end) outs.

(** Requests a connected socket can send, plus the two life-cycle events
    delivered by Socket.IO.  Only [join] tests its acknowledgement callback
    before calling it; the other requests are taken to carry one, as the
    client's [emitWithAck] always does. *)
Inductive Request :=
| Connection
| Join (callback : bool)
| GetRouterRtpCapabilities (roomName : string)
| CreateWebRtcTransport (roomName : string) (isProducer : bool)
| ConnectTransport (transportId : string) (dtlsParameters : string)
| Produce (transportId : string) (kind : MediaKind) (rtpParameters : list Codec)
| Consume (roomName producerId : string) (rtpCapabilities : list Codec)
| ResumeConsumer (consumerId : string)
| Disconnect.

Inductive DtlsState := dtls_new | dtls_connecting | dtls_connected
                     | dtls_failed | dtls_closed.

(** [`room-${peer1Id}-${peer2Id}`] *)
Definition roomName_of (peer1Id peer2Id : string) : string :=
  "room-" +:+ peer1Id +:+ "-" +:+ peer2Id.

(** JavaScript truthiness of the result of [rPop] (a string or [null]). *)
Definition truthy (v : option string) : option string :=
  match v with
  | Some s => if decide (s = "") then None else Some s
  | None => None
  end.

(** ** Server state and handlers *)

Section Server.
Context `{E : Engine}.

Record State := mkState {
  pool : list string;               (* the Redis list [waiting_pool] *)
  rooms : gmap string Router;
  transports : JsMap.t;
  peerRooms : gmap string string;
  engine : worker;                  (* the mediasoup worker *)
  sio : gmap string (gset string)   (* Socket.IO rooms: name to member sockets *)
}.

Definition initial : State := mkState [] ∅ [] ∅ worker_init ∅.

Definition set_pool (l : list string) (st : State) : State :=
  mkState l (rooms st) (transports st) (peerRooms st) (engine st) (sio st).

Definition set_rooms (m : gmap string Router) (st : State) : State :=
  mkState (pool st) m (transports st) (peerRooms st) (engine st) (sio st).

Definition set_transports (m : JsMap.t) (st : State) : State :=
  mkState (pool st) (rooms st) m (peerRooms st) (engine st) (sio st).

Definition set_peerRooms (m : gmap string string) (st : State) : State :=
  mkState (pool st) (rooms st) (transports st) m (engine st) (sio st).

Definition set_engine (w : worker) (st : State) : State :=
  mkState (pool st) (rooms st) (transports st) (peerRooms st) w (sio st).

Definition set_sio (m : gmap string (gset string)) (st : State) : State :=
  mkState (pool st) (rooms st) (transports st) (peerRooms st) (engine st) m.

(** *** [join], command by command *)

(** [await pubClient.lPush(WAITING_POOL_KEY, socket.id)] *)
Definition join_enqueue (sid : string) (st : State) : State :=
  set_pool (Redis.lPush sid (pool st)) st.

(** [await pubClient.lLen(WAITING_POOL_KEY)] *)
Definition join_count (st : State) : nat := Redis.lLen (pool st).

(** One [pubClient.rPop(WAITING_POOL_KEY)]. *)
Definition join_pop (st : State) : option string * State :=
  let '(r, l) := Redis.rPop (pool st) in (r, set_pool l st).

(** The body guarded by [if (peer1Id && peer2Id)]: create the router,
    record the room, and notify both peers. *)
Definition join_pair (peer1Id peer2Id : option string) (st : State)
    : State * list Output :=
  match truthy peer1Id, truthy peer2Id with
  | Some p1, Some p2 =>
      let roomName := roomName_of p1 p2 in
      match createRouter (engine st) mediaCodecs with
      | Ok (router, w) =>
          let st1 := set_engine w st in
          let st2 := set_rooms (<[roomName := router]> (rooms st1)) st1 in
          let st3 := set_peerRooms (<[p1 := roomName]> (peerRooms st2)) st2 in
          let st4 := set_peerRooms (<[p2 := roomName]> (peerRooms st3)) st3 in
          (st4, [EmitTo p1 None (EvMatched roomName);
                 EmitTo p2 None (EvMatched roomName)])
      | Throw e => (st, [Unhandled e])
      end
  | _, _ => (st, [])
  end.

(** [if (callback) callback({ status: 'waiting' })] *)
Definition join_waiting (callback : bool) : list Output :=
  if callback then [Reply PStatusWaiting] else [].

(** The whole [join] handler, run without interruption. *)
Definition on_join (sid : string) (callback : bool) (st : State)
    : State * list Output :=
  let st1 := join_enqueue sid st in
  let waitingCount := join_count st1 in
  if 2 <=? waitingCount then
    let '(peer1Id, st2) := join_pop st1 in
    let '(peer2Id, st3) := join_pop st2 in
    join_pair peer1Id peer2Id st3
  else (st1, join_waiting callback).

(** *** The other handlers *)

Definition on_getRouterRtpCapabilities (roomName : string) (st : State)
    : State * list Output :=
  match rooms st !! roomName with
  | Some router => (st, [Reply (PRtpCapabilities (rtpCapabilities router))])
  | None => (st, [])
  end.

Definition on_createWebRtcTransport (sid roomName : string) (isProd : bool)
    (st : State) : State * list Output :=
  match rooms st !! roomName with
  | None =>
      (st, [Reply (PError ("Router not found for room: " +:+ roomName))])
  | Some router =>
      match createWebRtcTransport (engine st) router (mkAppData sid isProd) with
      | Ok (transport, w) =>
          let st1 := set_engine w st in
          let st2 :=
            set_transports
              (JsMap.set (transport_id transport) transport (transports st1))
              st1 in
          (st2, [Reply (PTransport (transport_id transport)
                          (iceParameters transport) (iceCandidates transport)
                          (dtlsParameters transport))])
      | Throw e => (st, [Reply (PError (err_message e))])
      end
  end.

(** The [dtlsstatechange] listener installed on every created transport. *)
Definition on_dtlsstatechange (transportId : string) (dtlsState : DtlsState)
    (st : State) : State * list Output :=
  match dtlsState with
  | dtls_closed =>
      (set_transports (JsMap.delete transportId (transports st)) st, [])
  | _ => (st, [])
  end.

Definition on_connectTransport (transportId dtls : string) (st : State)
    : State * list Output :=
  match JsMap.get transportId (transports st) with
  | None => (st, [Reply (PError "Transport not found")])
  | Some transport =>
      match connect (engine st) transport dtls with
      | Ok w => (set_engine w st, [Reply PConnected])
      | Throw e => (st, [Unhandled e])
      end
  end.

Definition on_produce (sid transportId : string) (kind : MediaKind)
    (rtpParameters : list Codec) (st : State) : State * list Output :=
  match JsMap.get transportId (transports st) with
  | None => (st, [Reply (PError "Transport not found")])
  | Some transport =>
      match produce (engine st) transport kind rtpParameters with
      | Ok (producer, w) =>
          let st1 := set_engine w st in
          let broadcast :=
            match truthy (peerRooms st1 !! sid) with
            | Some roomName =>
                [EmitTo roomName (Some sid) (EvNewProducer (producer_id producer))]
            | None => []
            end in
          (st1, broadcast ++ [Reply (PId (producer_id producer))])
      | Throw e => (st, [Unhandled e])
      end
  end.

(** [t => t.appData.socketId === socket.id && !t.appData.isProducer] *)
Definition is_recv_transport_of (sid : string) (t : WebRtcTransport) : bool :=
  bool_decide (socketId (appData t) = sid) && negb (isProducer (appData t)).

Definition find_recv_transport (sid : string) (m : JsMap.t)
    : option WebRtcTransport :=
  List.find (is_recv_transport_of sid) (JsMap.values m).

Definition cannot_consume (producerId : string) : string :=
  "Cannot consume producer: " +:+ producerId.

Definition recv_transport_not_found : string :=
  "Receiving transport not found for this consumer".

Definition on_consume (sid roomName producerId : string)
    (caps : list Codec) (st : State) : State * list Output :=
  let consumable :=
    match rooms st !! roomName with
    | Some router => canConsume (engine st) router producerId caps
    | None => false
    end in
  if consumable then
    match find_recv_transport sid (transports st) with
    | None => (st, [Reply (PError recv_transport_not_found)])
    | Some transport =>
        match consume (engine st) transport producerId caps true with
        | Ok (consumer, w) =>
            (set_engine w st,
             [Reply (PConsumer (consumer_id consumer) producerId
                       (consumer_kind consumer)
                       (consumer_rtpParameters consumer))])
        | Throw e => (st, [Reply (PError (err_message e))])
        end
    end
  else (st, [Reply (PError (cannot_consume producerId))]).

(** The handler body holds two comments and no statement. *)
Definition on_resume_consumer (consumerId : string) (st : State)
    : State * list Output :=
  (st, []).

Definition on_disconnect (sid : string) (st : State) : State * list Output :=
  let st1 := set_pool (Redis.lRem 1 sid (pool st)) st in
  match truthy (peerRooms st1 !! sid) with
  | Some roomName =>
      (set_peerRooms (delete sid (peerRooms st1)) st1,
       [EmitTo roomName (Some sid) EvPeerDisconnected])
  | None => (st1, [])
  end.

(** *** Socket.IO rooms

    A socket is put in the room named by its own identifier when it
    connects and leaves every room before its [disconnect] listeners run.
    The server calls [socket.join] nowhere. *)
Definition sio_connect (sid : string) (st : State) : State :=
  set_sio (<[sid := {[sid]}]> (sio st)) st.

Definition sio_leave_all (sid : string) (st : State) : State :=
  set_sio ((fun members : gset string => members ∖ {[sid]}) <$> sio st) st.

(** The sockets an emission reaches. *)
Definition recipients (st : State) (room : string) (except : option string)
    : gset string :=
  default ∅ (sio st !! room) ∖
    match except with Some s => {[s]} | None => ∅ end.

(** *** Dispatch *)

Definition handle (sid : string) (req : Request) (st : State)
    : State * list Output :=
  match req with
  | Connection => (sio_connect sid st, [])
  | Join callback => on_join sid callback st
  | GetRouterRtpCapabilities roomName =>
      on_getRouterRtpCapabilities roomName st
  | CreateWebRtcTransport roomName isProd =>
      on_createWebRtcTransport sid roomName isProd st
  | ConnectTransport transportId dtls => on_connectTransport transportId dtls st
  | Produce transportId kind rtp => on_produce sid transportId kind rtp st
  | Consume roomName producerId caps =>
      on_consume sid roomName producerId caps st
  | ResumeConsumer consumerId => on_resume_consumer consumerId st
  | Disconnect => on_disconnect sid (sio_leave_all sid st)
  end.

Inductive Input :=
| FromSocket (sid : string) (req : Request)
| DtlsStateChange (transportId : string) (dtlsState : DtlsState).

Definition step (i : Input) (st : State) : State * list Output :=
  match i with
  | FromSocket sid req => handle sid req st
  | DtlsStateChange transportId s => on_dtlsstatechange transportId s st
  end.

(** Handlers run one after the other, each to completion.  This is not
    how [join] is scheduled when several sockets join at once (see the
    interleaved model below), and a live Node 18 process ends at the first
    [Unhandled] output: the states of the live process are among those [run]
    reaches, so what holds of every state [run] reaches holds of them. *)
Fixpoint run (tr : list Input) (st : State) : State * list Output :=
  match tr with
  | [] => (st, [])
  | i :: tr' =>
      let '(st1, o1) := step i st in
      let '(st2, o2) := run tr' st1 in
      (st2, o1 ++ o2)
  end.

Definition joins (peers : list string) : list Input :=
  map (fun p => FromSocket p (Join true)) peers.

End Server.

(** ** Interleaved [join] handlers

    Every [await] of the [join] handler is a point where another handler
    may run.  A task is one invocation of the handler together with the place
    it has reached; the Redis commands themselves are atomic.  The two
    [rPop] of the [Promise.all] are two commands.  The last step, from
    [await worker.createRouter] to the two [matched] events, touches only the
    tables of the process and is taken as one. *)

Section Interleaving.
Context `{E : Engine}.

Inductive JoinPc :=
| AtPush                                   (* before [lPush] *)
| AtLen                                    (* before [lLen] *)
| AtPop1                                   (* before the first [rPop] *)
| AtPop2 (peer1Id : option string)         (* before the second [rPop] *)
| AtPair (peer1Id peer2Id : option string) (* both replies received *)
| Finished.

Record Task := mkTask {
  task_sid : string;
  task_callback : bool;
  task_pc : JoinPc
}.

Definition at_pc (pc : JoinPc) (t : Task) : Task :=
  mkTask (task_sid t) (task_callback t) pc.

Definition task_step (t : Task) (st : State) : Task * State * list Output :=
  match task_pc t with
  | AtPush => (at_pc AtLen t, join_enqueue (task_sid t) st, [])
  | AtLen =>
      if 2 <=? join_count st then (at_pc AtPop1 t, st, [])
      else (at_pc Finished t, st, join_waiting (task_callback t))
  | AtPop1 =>
      let '(r, st1) := join_pop st in (at_pc (AtPop2 r) t, st1, [])
  | AtPop2 peer1Id =>
      let '(r, st1) := join_pop st in (at_pc (AtPair peer1Id r) t, st1, [])
  | AtPair peer1Id peer2Id =>
      let '(st1, o) := join_pair peer1Id peer2Id st in
      (at_pc Finished t, st1, o)
  | Finished => (t, st, [])
  end.

Fixpoint task_run (n : nat) (t : Task) (st : State)
    : Task * State * list Output :=
  match n with
  | 0 => (t, st, [])
  | S n' =>
      let '(t1, st1, o1) := task_step t st in
      let '(t2, st2, o2) := task_run n' t1 st1 in
      (t2, st2, o1 ++ o2)
  end.

Record Config := mkConfig {
  c_state : State;
  c_tasks : list Task;
  c_out : list Output
}.

(** A schedule names, at each step, the handler that proceeds.  As with
    [run], a schedule is carried on after an [Unhandled] output. *)
Inductive Action :=
| Advance (i : nat)        (* the [i]-th [join] performs its next command *)
| Drop (sid : string).     (* socket [sid] disconnects *)

Definition is_finished (pc : JoinPc) : bool :=
  match pc with Finished => true | _ => false end.

Definition exec (a : Action) (c : Config) : option Config :=
  match a with
  | Advance i =>
      match c_tasks c !! i with
      | Some t =>
          if is_finished (task_pc t) then None
          else
            let '(t1, st1, o) := task_step t (c_state c) in
            Some (mkConfig st1 (<[i := t1]> (c_tasks c)) (c_out c ++ o))
      | None => None
      end
  | Drop sid =>
      let '(st1, o) := handle sid Disconnect (c_state c) in
      Some (mkConfig st1 (c_tasks c) (c_out c ++ o))
  end.

Fixpoint run_schedule (s : list Action) (c : Config) : option Config :=
  match s with
  | [] => Some c
  | a :: s' =>
      match exec a c with
      | Some c1 => run_schedule s' c1
      | None => None
      end
  end.

(** All the given sockets have emitted [join]; no handler has started. *)
Definition spawn (st : State) (peers : list string) : Config :=
  mkConfig st (map (fun p => mkTask p true AtPush) peers) [].

Definition all_finished (c : Config) : bool :=
  forallb (fun t => is_finished (task_pc t)) (c_tasks c).

End Interleaving.

(** ** A reference engine

    A deterministic engine that never refuses a well-formed call.  It is
    used to run the server on concrete inputs. *)
Module RefEngine.

Record W := mkW {
  next_id : nat;
  transport_router : gmap string string;
  producers : gmap string ProducerInfo;
  consumers : gmap string bool
}.

Definition fresh (prefix : string) (w : W) : string :=
  prefix +:+ pretty (next_id w).

Definition bump (w : W) : W :=
  mkW (S (next_id w)) (transport_router w) (producers w) (consumers w).

Definition ref_createRouter (w : W) (codecs : list Codec)
    : Result (Router * W) :=
  Ok (mkRouter (fresh "router-" w) codecs, bump w).

Definition ref_createWebRtcTransport (w : W) (r : Router) (ad : AppData)
    : Result (WebRtcTransport * W) :=
  let id := fresh "transport-" w in
  Ok (mkTransport id "ice" "candidates" "dtls" ad,
      mkW (S (next_id w)) (<[id := router_id r]> (transport_router w))
          (producers w) (consumers w)).

Definition ref_connect (w : W) (t : WebRtcTransport) (dtls : string)
    : Result W :=
  Ok w.

Definition ref_produce (w : W) (t : WebRtcTransport) (k : MediaKind)
    (rtp : list Codec) : Result (Producer * W) :=
  match rtp, transport_router w !! transport_id t with
  | c :: _, Some rid =>
      let id := fresh "producer-" w in
      Ok (mkProducer id,
          mkW (S (next_id w)) (transport_router w)
              (<[id := mkProducerInfo rid k c]> (producers w)) (consumers w))
  | [], _ => Throw (JsError "missing codecs")
  | _, None => Throw (JsError "transport closed")
  end.

Definition ref_consume (w : W) (t : WebRtcTransport) (pid : string)
    (caps : list Codec) (paused : bool) : Result (Consumer * W) :=
  match producers w !! pid, transport_router w !! transport_id t with
  | Some i, Some rid =>
      if bool_decide (p_router i = rid) then
        let id := fresh "consumer-" w in
        Ok (mkConsumer id (p_kind i) [p_codec i],
            mkW (S (next_id w)) (transport_router w) (producers w)
                (<[id := paused]> (consumers w)))
      else Throw (JsError "Producer not found")
  | None, _ => Throw (JsError "Producer not found")
  | _, None => Throw (JsError "transport closed")
  end.

Lemma ref_appData w r ad t w' :
  ref_createWebRtcTransport w r ad = Ok (t, w') -> appData t = ad.
Proof. unfold ref_createWebRtcTransport. intros [= <- _]. reflexivity. Qed.

Lemma ref_produce_registers w t k rtp p w' :
  ref_produce w t k rtp = Ok (p, w') ->
  exists i, producers w' !! producer_id p = Some i /\ p_kind i = k.
Proof.
  unfold ref_produce.
  destruct rtp as [|c rtp]; [discriminate|].
  destruct (transport_router w !! transport_id t) as [rid|]; [|discriminate].
  intros [= <- <-]. simpl.
  exists (mkProducerInfo rid k c). split; [apply lookup_insert_eq | reflexivity].
Qed.

Lemma ref_consume_kind w t pid caps paused c w' :
  ref_consume w t pid caps paused = Ok (c, w') ->
  (exists i, producers w !! pid = Some i /\ p_kind i = consumer_kind c)
  /\ consumers w' !! consumer_id c = Some paused.
Proof.
  unfold ref_consume.
  destruct (producers w !! pid) as [i|]; [|discriminate].
  destruct (transport_router w !! transport_id t) as [rid|]; [|discriminate].
  case_bool_decide; [|discriminate].
  intros [= <- <-]. simpl. split.
  - exists i. split; reflexivity.
  - apply lookup_insert_eq.
Qed.

Definition engine : Engine := {|
  worker := W;
  worker_init := mkW 0 ∅ ∅ ∅;
  createRouter := ref_createRouter;
  createWebRtcTransport := ref_createWebRtcTransport;
  connect := ref_connect;
  produce := ref_produce;
  consume := ref_consume;
  producer_info := fun w pid => producers w !! pid;
  consumer_paused := fun w cid => consumers w !! cid;
  createWebRtcTransport_appData := ref_appData;
  produce_registers := ref_produce_registers;
  consume_kind := ref_consume_kind
|}.

End RefEngine.

(** ** Vocabulary of the properties *)

(** The pairing the specification asks for: first with second, third with
    fourth, and so on, in the order of arrival. *)
Fixpoint fifo_pairs (peers : list string) : list (string * string) :=
  match peers with
  | a :: b :: rest => (a, b) :: fifo_pairs rest
  | _ => []
  end.

Definition flatten_pairs (ps : list (string * string)) : list string :=
  flat_map (fun ab => [ab.1; ab.2]) ps.

Definition pair_room (ab : string * string) : string :=
  roomName_of ab.1 ab.2.

(** The peer-to-room index after the pairs [ps] have been recorded. *)
Fixpoint assign (ps : list (string * string)) (m : gmap string string)
    : gmap string string :=
  match ps with
  | [] => m
  | ab :: ps' =>
      assign ps' (<[ab.2 := pair_room ab]> (<[ab.1 := pair_room ab]> m))
  end.

Section Vocabulary.
Context `{E : Engine}.

(** The engine allocates a router whenever it is asked to. *)
Definition router_available : Prop :=
  forall w, exists router w', createRouter w mediaCodecs = Ok (router, w').

(** Identifiers a [join] handler has popped and not yet paired. *)
Definition held (pc : JoinPc) : list string :=
  match pc with
  | AtPop2 peer1Id => option_list peer1Id
  | AtPair peer1Id peer2Id => option_list peer1Id ++ option_list peer2Id
  | _ => []
  end.

(** The sockets a [matched] event has been addressed to, in order. *)
Definition matched_peers (outs : list Output) : list string :=
  omap (fun o => match o with
                 | EmitTo peer None (EvMatched _) => Some peer
                 | _ => None
                 end) outs.

(** Every identifier the matchmaking still accounts for: queued, popped
    by a handler in flight, or already matched. *)
Definition accounted (c : Config) : list string :=
  pool (c_state c)
  ++ (c_tasks c ≫= fun t => held (task_pc t))
  ++ matched_peers (c_out c).

Definition accounted_inv (c : Config) : Prop :=
  NoDup (accounted c)
  /\ NoDup (task_sid <$> c_tasks c)
  /\ forall j t, c_tasks c !! j = Some t -> task_pc t = AtPush ->
       task_sid t ∉ accounted c.

(** What a successful pairing does. *)
Definition pairing (sid : string) (st st' : State) : Prop :=
  exists p1 p2 router,
    sid :: pool st = pool st' ++ [p2; p1]
    /\ rooms st' = <[roomName_of p1 p2 := router]> (rooms st)
    /\ peerRooms st' =
         <[p2 := roomName_of p1 p2]> (<[p1 := roomName_of p1 p2]> (peerRooms st)).

(** Socket.IO rooms only ever hold the socket they are named after. *)
Definition sio_own_rooms (st : State) : Prop :=
  forall room members, sio st !! room = Some members -> members ⊆ {[room]}.

End Vocabulary.

(** A schedule for four sockets [A], [B], [C], [D] joining at once.  [A]
    and [B] both read a length of two before either pops; [C] enqueues in
    between.  Each handler's two [rPop] are adjacent. *)
Definition race_schedule : list Action :=
  [ Advance 0;             (* A: lPush *)
    Advance 1;             (* B: lPush *)
    Advance 0;             (* A: lLen = 2 *)
    Advance 1;             (* B: lLen = 2 *)
    Advance 2;             (* C: lPush *)
    Advance 0; Advance 0;  (* A: rPop = A, rPop = B *)
    Advance 1; Advance 1;  (* B: rPop = C, rPop = null *)
    Advance 0;             (* A: room-A-B *)
    Advance 1;             (* B: guard fails *)
    Advance 2;             (* C: lLen = 0, waiting *)
    Advance 3;             (* D: lPush *)
    Advance 3 ].           (* D: lLen = 1, waiting *)

(** ** Concrete sessions on the reference engine *)

Module Scenario.

Definition vp8 : Codec := mkCodec video "video/VP8" 90000 None.
Definition opus : Codec := mkCodec audio "audio/opus" 48000 (Some 2%N).

Definition after (tr : list Input) : State :=
  (run (E := RefEngine.engine) tr initial).1.

(** [A] and [B] connect and are paired into [room-A-B]; [C] connects and
    never joins. *)
Definition pair_up : list Input :=
  [ FromSocket "A" Connection; FromSocket "B" Connection;
    FromSocket "C" Connection;
    FromSocket "A" (Join true); FromSocket "B" (Join true) ].

(** [A] opens a send transport ([transport-1]). *)
Definition open_send : list Input :=
  pair_up ++ [ FromSocket "A" (CreateWebRtcTransport "room-A-B" true) ].

(** [A] produces video on it ([producer-2]). *)
Definition produce_video : list Input :=
  open_send ++ [ FromSocket "A" (Produce "transport-1" video [vp8]) ].

(** [B] opens a receive transport ([transport-3]). *)
Definition open_recv : list Input :=
  produce_video ++ [ FromSocket "B" (CreateWebRtcTransport "room-A-B" false) ].

(** [B] consumes [A]'s video ([consumer-4]). *)
Definition negotiate : list Input :=
  open_recv ++ [ FromSocket "B" (Consume "room-A-B" "producer-2" [opus; vp8]) ].

End Scenario.

(** ** An engine whose worker has died

    Every call throws.  It is used to run the handlers' failure paths. *)
Module DeadEngine.

Definition dead {A : Type} : Result A := Throw (JsError "worker closed").

Definition engine : Engine := {|
  worker := unit;
  worker_init := tt;
  createRouter := fun _ _ => dead;
  createWebRtcTransport := fun _ _ _ => dead;
  connect := fun _ _ _ => dead;
  produce := fun _ _ _ _ => dead;
  consume := fun _ _ _ _ _ => dead;
  producer_info := fun _ _ => None;
  consumer_paused := fun _ _ => None;
  createWebRtcTransport_appData :=
    fun w r ad t w' (H : dead = Ok (t, w')) =>
      match H in _ = y return match y with Ok _ => appData t = ad | Throw _ => True end
      with eq_refl => I end;
  produce_registers :=
    fun w t k rtp p w' (H : dead = Ok (p, w')) =>
      match H in _ = y
            return match y with
                   | Ok _ => exists i, None = Some i /\ p_kind i = k
                   | Throw _ => True
                   end
      with eq_refl => I end;
  consume_kind :=
    fun w t pid caps paused c w' (H : dead = Ok (c, w')) =>
      match H in _ = y
            return match y with
                   | Ok _ =>
                       (exists i, None = Some i /\ p_kind i = consumer_kind c)
                       /\ None = Some paused
                   | Throw _ => True
                   end
      with eq_refl => I end
|}.

End DeadEngine.

(** The identifiers under which transports are registered, oldest first. *)
Definition transport_ids (m : JsMap.t) : list string := m.*1.

(** The table is a map (no identifier twice) and every transport is
    registered under its own identifier. *)
Definition transports_wf (m : JsMap.t) : Prop :=
  NoDup (transport_ids m)
  /\ Forall (fun kv => transport_id kv.2 = kv.1) m.

(** A schedule for the same four sockets on two replicas, [A] on one and
    [B] on the other, each with its own Redis connection: all four enqueue,
    [A]'s and [B]'s handlers both read a length of four, and their [rPop]
    commands reach Redis alternately. *)
Definition alternating_schedule : list Action :=
  [ Advance 0; Advance 1; Advance 2; Advance 3;  (* lPush A, B, C, D *)
    Advance 0;             (* A: lLen = 4 *)
    Advance 1;             (* B: lLen = 4 *)
    Advance 0;             (* A: rPop = A *)
    Advance 1;             (* B: rPop = B *)
    Advance 0;             (* A: rPop = C *)
    Advance 1;             (* B: rPop = D *)
    Advance 0;             (* A: room-A-C *)
    Advance 1;             (* B: room-B-D *)
    Advance 2;             (* C: lLen = 0, waiting *)
    Advance 3 ].           (* D: lLen = 0, waiting *)

(** What a finished schedule leaves behind: the number of rooms, the room
    of each of the four sockets, and the pool. *)
Definition pairing_outcome `{E : Engine} (c : Config)
    : nat * list (option string) * list string :=
  (size (rooms (c_state c)),
   (fun p => peerRooms (c_state c) !! p) <$> ["A"; "B"; "C"; "D"],
   pool (c_state c)).

(** ** Two rooms, and a socket with a receive transport in each *)
Module TwoRooms.

(** [A], [B] are paired into [room-A-B] (router-0) and [C], [D] into
    [room-C-D] (router-1). *)
Definition pair_up : list Input :=
  [ FromSocket "A" Connection; FromSocket "B" Connection;
    FromSocket "C" Connection; FromSocket "D" Connection;
    FromSocket "A" (Join true); FromSocket "B" (Join true);
    FromSocket "C" (Join true); FromSocket "D" (Join true) ].

(** [D] first asks for a receive transport on [room-A-B] ([transport-2]),
    then for one on its own room ([transport-3]); [C] opens a send transport
    ([transport-4]) and produces video on it ([producer-5]). *)
Definition negotiate : list Input :=
  pair_up
  ++ [ FromSocket "D" (CreateWebRtcTransport "room-A-B" false);
       FromSocket "D" (CreateWebRtcTransport "room-C-D" false);
       FromSocket "C" (CreateWebRtcTransport "room-C-D" true);
       FromSocket "C" (Produce "transport-4" video [Scenario.vp8]) ].

End TwoRooms.

(** * Properties *)

(** ** The Redis list *)

Lemma rPop_snoc (l : list string) (x : string) :
  Redis.rPop (l ++ [x]) = (Some x, l).
Proof.
  induction l as [|y l IH]; [reflexivity|].
  simpl. destruct (l ++ [x]) as [|z l'] eqn:Hl.
  - destruct l; discriminate.
  - rewrite IH. reflexivity.
Qed.

Lemma rPop_elem (l l' : list string) (x : string) :
  Redis.rPop l = (Some x, l') -> l = l' ++ [x].
Proof.
  induction l as [|y l0 _] using rev_ind; [discriminate|].
  rewrite rPop_snoc. intros [= -> ->]. reflexivity.
Qed.

Lemma rPop_none (l l' : list string) :
  Redis.rPop l = (None, l') -> l = [] /\ l' = [].
Proof.
  induction l as [|y l0 _] using rev_ind.
  - intros [= <-]. split; reflexivity.
  - rewrite rPop_snoc. discriminate.
Qed.

Lemma lRem_first_0 (v : string) (l : list string) :
  Redis.lRem_first 0 v l = l.
Proof. destruct l; reflexivity. Qed.

Lemma lRem_first_elem (n : nat) (v y : string) (l : list string) :
  y ∈ Redis.lRem_first n v l -> y ∈ l.
Proof.
  revert n. induction l as [|x l IH]; intros n; simpl; [done|].
  destruct n as [|n]; [done|].
  case_decide; rewrite ?elem_of_cons.
  - intros Hy. right. by apply (IH n).
  - intros [->|Hy]; [by left|]. right. by apply (IH (S n)).
Qed.

Lemma lRem_first_NoDup (n : nat) (v : string) (l : list string) :
  NoDup l -> NoDup (Redis.lRem_first n v l).
Proof.
  revert n. induction l as [|x l IH]; intros n Hnd; simpl; [constructor|].
  apply NoDup_cons in Hnd as [Hx Hnd].
  destruct n as [|n]; [by apply NoDup_cons_2|].
  case_decide; [by apply IH|].
  apply NoDup_cons. split; [|by apply IH].
  intros Hin. apply Hx. by apply (lRem_first_elem (S n) v x l).
Qed.

Lemma lRem_first_absent (n : nat) (v : string) (l : list string) :
  v ∉ l -> Redis.lRem_first n v l = l.
Proof.
  revert n. induction l as [|x l IH]; intros n Hv; simpl; [done|].
  destruct n as [|n]; [done|].
  apply not_elem_of_cons in Hv as [Hne Hv].
  case_decide; [congruence|]. by rewrite IH.
Qed.

Lemma lRem_one_removes (v : string) (l : list string) :
  NoDup l -> v ∉ Redis.lRem 1 v l.
Proof.
  unfold Redis.lRem.
  induction l as [|x l IH]; intros Hnd; simpl; [apply not_elem_of_nil|].
  apply NoDup_cons in Hnd as [Hx Hnd].
  case_decide; [rewrite lRem_first_0; by subst|].
  apply not_elem_of_cons. split; [congruence|]. by apply IH.
Qed.

(** On a list without duplicates, removing one occurrence twice is the
    same as removing it once. *)
Lemma lRem_one_idempotent (v : string) (l : list string) :
  NoDup l -> Redis.lRem 1 v (Redis.lRem 1 v l) = Redis.lRem 1 v l.
Proof.
  intros Hnd. unfold Redis.lRem at 1.
  apply lRem_first_absent. by apply lRem_one_removes.
Qed.

Lemma truthy_Some (v : option string) (s : string) :
  truthy v = Some s -> v = Some s.
Proof.
  destruct v as [x|]; simpl; [|discriminate].
  destruct (decide (x = "")); [discriminate|]. congruence.
Qed.

(** ** Room names *)

Lemma append_inj_length (a a' b b' : string) :
  String.length a = String.length a' ->
  a +:+ b = a' +:+ b' -> a = a' /\ b = b'.
Proof.
  revert a'. induction a as [|c a IH]; intros [|c' a'] Hlen Heq;
    simpl in *; try discriminate.
  - done.
  - injection Hlen as Hlen. injection Heq as -> Heq.
    destruct (IH a' Hlen Heq) as [-> ->]. done.
Qed.

Lemma roomName_of_inj (a b a' b' : string) :
  String.length a = String.length a' ->
  roomName_of a b = roomName_of a' b' -> a = a' /\ b = b'.
Proof.
  unfold roomName_of. intros Hlen Heq.
  apply (append_inj_length "room-" "room-") in Heq as [_ Heq]; [|done].
  apply append_inj_length in Heq as [-> Heq]; [|done].
  apply (append_inj_length "-" "-") in Heq as [_ ->]; done.
Qed.

(** ** Sequential matchmaking *)

Lemma fifo_pairs_flatten (peers : list string) :
  Nat.Even (length peers) -> flatten_pairs (fifo_pairs peers) = peers.
Proof.
  intros [k Hk]. revert peers Hk.
  induction k as [|k IH]; intros peers Hk.
  - destruct peers; [reflexivity | simpl in Hk; lia].
  - destruct peers as [|a [|b rest]]; simpl in Hk; try lia.
    simpl. f_equal. f_equal. apply IH. lia.
Qed.

Lemma fifo_pairs_length (peers : list string) :
  Nat.Even (length peers) -> length (fifo_pairs peers) = length peers / 2.
Proof.
  intros [k Hk]. rewrite Hk, Nat.mul_comm, Nat.div_mul by lia.
  revert peers Hk.
  induction k as [|k IH]; intros peers Hk.
  - destruct peers; [reflexivity | simpl in Hk; lia].
  - destruct peers as [|a [|b rest]]; simpl in Hk; try lia.
    simpl. f_equal. apply IH. lia.
Qed.

Lemma fifo_pairs_lookup (peers : list string) (i : nat) (a b : string) :
  peers !! (2 * i) = Some a -> peers !! (2 * i + 1) = Some b ->
  fifo_pairs peers !! i = Some (a, b).
Proof.
  revert peers. induction i as [|i IH]; intros peers Ha Hb.
  - destruct peers as [|a' [|b' rest]]; simpl in *; try discriminate.
    congruence.
  - destruct peers as [|a' [|b' rest]]; simpl in *; try discriminate.
    apply IH.
    + replace (2 * i) with (i + (i + 0)) by lia.
      replace (i + S (i + 0)) with (S (i + (i + 0))) in Ha by lia. exact Ha.
    + replace (2 * i + 1) with (i + (i + 0) + 1) by lia.
      replace (i + S (i + 0) + 1) with (S (i + (i + 0) + 1)) in Hb by lia.
      exact Hb.
Qed.

Lemma elem_of_flatten_pairs (ps : list (string * string)) (p : string) :
  p ∈ flatten_pairs ps <-> exists ab, ab ∈ ps /\ (p = ab.1 \/ p = ab.2).
Proof.
  unfold flatten_pairs. rewrite list_elem_of_In, in_flat_map. split.
  - intros (ab & Hab & Hp). exists ab. rewrite list_elem_of_In. split; [done|].
    simpl in Hp. destruct Hp as [<-|[<-|[]]]; auto.
  - intros (ab & Hab & Hp). exists ab. rewrite <- list_elem_of_In. split; [done|].
    simpl. destruct Hp as [->| ->]; auto.
Qed.

Lemma assign_other (ps : list (string * string)) (m : gmap string string)
    (p : string) :
  p ∉ flatten_pairs ps -> assign ps m !! p = m !! p.
Proof.
  revert m. induction ps as [|[a b] ps IH]; intros m Hp; [done|].
  simpl in *. apply not_elem_of_cons in Hp as [Ha Hp].
  apply not_elem_of_cons in Hp as [Hb Hp].
  rewrite IH by done. by rewrite !lookup_insert_ne.
Qed.

Lemma assign_member (ps : list (string * string)) (m : gmap string string)
    (a b : string) :
  NoDup (flatten_pairs ps) -> (a, b) ∈ ps ->
  assign ps m !! a = Some (roomName_of a b)
  /\ assign ps m !! b = Some (roomName_of a b).
Proof.
  revert m. induction ps as [|[a' b'] ps IH]; intros m Hnd Hin.
  - by apply elem_of_nil in Hin.
  - simpl in Hnd. apply NoDup_cons in Hnd as [Ha' Hnd].
    apply NoDup_cons in Hnd as [Hb' Hnd].
    apply elem_of_cons in Hin as [[= -> ->]|Hin].
    + simpl. rewrite !assign_other by (done || set_solver).
      unfold pair_room. simpl. split.
      * rewrite lookup_insert_ne by set_solver. apply lookup_insert_eq.
      * apply lookup_insert_eq.
    + simpl. by apply IH.
Qed.

Lemma assign_inv (ps : list (string * string)) (m : gmap string string)
    (p room : string) :
  assign ps m !! p = Some room ->
  m !! p = Some room
  \/ exists ab, ab ∈ ps /\ (p = ab.1 \/ p = ab.2) /\ room = pair_room ab.
Proof.
  revert m. induction ps as [|ab ps IH]; intros m Hl; [by left|].
  simpl in Hl. apply IH in Hl as [Hl|(ab' & Hin & Hp & ->)].
  - rewrite !lookup_insert in Hl. repeat case_decide; simplify_eq.
    + right. exists ab. set_solver.
    + right. exists ab. set_solver.
    + by left.
  - right. exists ab'. set_solver.
Qed.

Section Matchmaking.
Context `{E : Engine}.

Lemma on_join_first (a : string) (cb : bool) (st : State) :
  pool st = [] ->
  on_join a cb st = (set_pool [a] st, join_waiting cb).
Proof.
  intros Hp. unfold on_join, join_count, join_enqueue. simpl.
  rewrite Hp. reflexivity.
Qed.

Lemma on_join_second (a b : string) (cb : bool) (st : State)
    (router : Router) (w : worker) :
  pool st = [a] -> a <> "" -> b <> "" ->
  createRouter (engine st) mediaCodecs = Ok (router, w) ->
  on_join b cb st =
    (mkState [] (<[roomName_of a b := router]> (rooms st)) (transports st)
       (<[b := roomName_of a b]> (<[a := roomName_of a b]> (peerRooms st)))
       w (sio st),
     [EmitTo a None (EvMatched (roomName_of a b));
      EmitTo b None (EvMatched (roomName_of a b))]).
Proof.
  intros Hp Ha Hb Hr.
  unfold on_join, join_count, join_enqueue, join_pop, join_pair. simpl.
  rewrite Hp. simpl.
  destruct (decide (a = "")) as [|_]; [done|].
  destruct (decide (b = "")) as [|_]; [done|].
  rewrite Hr. reflexivity.
Qed.

Lemma run_joins_pairs (ps : list (string * string)) (st : State) :
  router_available ->
  pool st = [] ->
  Forall (fun p => p <> "") (flatten_pairs ps) ->
  exists st' outs,
    run (joins (flatten_pairs ps)) st = (st', outs)
    /\ pool st' = []
    /\ peerRooms st' = assign ps (peerRooms st)
    /\ dom (rooms st') = dom (rooms st) ∪ list_to_set (pair_room <$> ps)
    /\ transports st' = transports st.
Proof.
  intros Hav. revert st.
  induction ps as [|[a b] ps IH]; intros st Hp Hne.
  - exists st, []. simpl. repeat split; try done. set_solver.
  - simpl in Hne. apply Forall_cons in Hne as [Ha Hne].
    apply Forall_cons in Hne as [Hb Hne].
    destruct (Hav (engine st)) as (router & w & Hr).
    simpl. rewrite (on_join_first a true st Hp).
    rewrite (on_join_second a b true (set_pool [a] st) router w); try done.
    simpl.
    match goal with |- context [run _ ?s] => set (st2 := s) end.
    destruct (IH st2) as (st' & outs & Hrun & Hp' & Hpr & Hdom & Htr);
      [done|done|].
    fold (flatten_pairs ps). rewrite Hrun.
    eexists _, _. split; [reflexivity|].
    repeat split; try done.
    rewrite Hdom. subst st2. simpl. rewrite dom_insert_L.
    unfold pair_room at 2. simpl. set_solver.
Qed.

End Matchmaking.

Lemma flatten_pairs_NoDup (ps : list (string * string)) :
  NoDup (flatten_pairs ps) ->
  NoDup ps /\ forall a b, (a, b) ∈ ps -> a <> b.
Proof.
  induction ps as [|[a b] ps IH]; intros Hnd.
  - split; [constructor|]. intros a b Hin. by apply elem_of_nil in Hin.
  - simpl in Hnd. apply NoDup_cons in Hnd as [Ha Hnd].
    apply NoDup_cons in Hnd as [Hb Hnd].
    destruct (IH Hnd) as [Hps Hne]. split.
    + apply NoDup_cons. split; [|done].
      intros Hin. apply Hb. apply elem_of_flatten_pairs.
      exists (a, b). auto.
    + intros a' b' Hin. apply elem_of_cons in Hin as [[= -> ->]|Hin].
      * intros ->. apply Ha. by left.
      * by apply Hne.
Qed.

Lemma pair_room_NoDup (ps : list (string * string)) (idlen : nat) :
  NoDup (flatten_pairs ps) ->
  Forall (fun p => String.length p = idlen) (flatten_pairs ps) ->
  NoDup (pair_room <$> ps).
Proof.
  intros Hnd Hlen. apply NoDup_fmap_2_strong.
  - intros [a b] [a' b'] Hin Hin' Heq. unfold pair_room in Heq. simpl in Heq.
    rewrite Forall_forall in Hlen.
    apply roomName_of_inj in Heq as [-> ->]; [done|].
    rewrite (Hlen a), (Hlen a'); [done| |].
    + apply elem_of_flatten_pairs. exists (a', b'). auto.
    + apply elem_of_flatten_pairs. exists (a, b). auto.
  - by apply flatten_pairs_NoDup.
Qed.

(** X20.  When an even number of distinct sockets join one after the
    other, each handler running to completion before the next starts, with
    no disconnect, half as many rooms exist afterwards; every
    room has exactly two distinct members; every peer is in exactly one room;
    and the pairing is first-come first-served: the peers at positions [2i]
    and [2i+1] of the arrival order share a room.  Socket identifiers have a
    fixed non-zero length, and the engine is assumed to allocate routers. *)
Theorem join_even_fifo `{E : Engine} (peers : list string) (idlen : nat) :
  router_available ->
  NoDup peers ->
  Nat.Even (length peers) ->
  0 < idlen ->
  Forall (fun p => String.length p = idlen) peers ->
  exists st' outs,
    run (joins peers) initial = (st', outs)
    /\ size (rooms st') = length peers / 2
    /\ (forall room, room ∈ dom (rooms st') ->
          exists a b, a <> b /\ room = roomName_of a b
            /\ forall p, peerRooms st' !! p = Some room <-> (p = a \/ p = b))
    /\ (forall p, p ∈ peers ->
          exists room, peerRooms st' !! p = Some room
                       /\ room ∈ dom (rooms st'))
    /\ (forall i a b,
          peers !! (2 * i) = Some a -> peers !! (2 * i + 1) = Some b ->
          peerRooms st' !! a = Some (roomName_of a b)
          /\ peerRooms st' !! b = Some (roomName_of a b)
          /\ roomName_of a b ∈ dom (rooms st'))
    /\ pool st' = [].
Proof.
  intros Hav Hnd Heven Hpos Hlen.
  pose proof (fifo_pairs_flatten peers Heven) as Hflat.
  set (ps := fifo_pairs peers) in *.
  assert (Hne : Forall (fun p => p <> "") (flatten_pairs ps)).
  { rewrite Hflat. eapply Forall_impl; [exact Hlen|].
    simpl. intros p Hp ->. simpl in Hp. lia. }
  destruct (run_joins_pairs ps initial Hav eq_refl Hne)
    as (st' & outs & Hrun & Hpool & Hpr & Hdom & _).
  rewrite Hflat in Hrun. exists st', outs.
  simpl in Hpr, Hdom. rewrite dom_empty_L, (left_id_L ∅ (∪)) in Hdom.
  assert (Hnd' : NoDup (flatten_pairs ps)) by (by rewrite Hflat).
  assert (Hlen' : Forall (fun p => String.length p = idlen) (flatten_pairs ps))
    by (by rewrite Hflat).
  assert (Hroom : forall a b, (a, b) ∈ ps -> roomName_of a b ∈ dom (rooms st')).
  { intros a b Hin. rewrite Hdom. apply elem_of_list_to_set.
    apply list_elem_of_fmap. exists (a, b). done. }
  split; [done|]. split; [|split; [|split; [|split]]].
  - rewrite <- size_dom, Hdom, size_list_to_set.
    + rewrite length_fmap. by apply fifo_pairs_length.
    + by apply (pair_room_NoDup ps idlen).
  - intros room Hin. rewrite Hdom in Hin.
    apply elem_of_list_to_set, list_elem_of_fmap in Hin as ([a b] & -> & Hin).
    exists a, b. split; [by apply (flatten_pairs_NoDup ps)|].
    split; [done|]. intros p. rewrite Hpr. split.
    + intros Hl. apply assign_inv in Hl as [Hl|([a' b'] & Hin' & Hp & Heq)].
      { by rewrite lookup_empty in Hl. }
      unfold pair_room in Heq. simpl in *.
      rewrite Forall_forall in Hlen'.
      apply roomName_of_inj in Heq as [-> ->]; [done|].
      rewrite (Hlen' a), (Hlen' a'); [done| |].
      * apply elem_of_flatten_pairs. exists (a', b'). auto.
      * apply elem_of_flatten_pairs. exists (a, b). auto.
    + destruct (assign_member ps ∅ a b Hnd' Hin) as [Ha Hb].
      unfold pair_room. simpl. intros [->| ->]; done.
  - intros p Hp. rewrite <- Hflat in Hp.
    apply elem_of_flatten_pairs in Hp as ([a b] & Hin & Hp). simpl in Hp.
    destruct (assign_member ps ∅ a b Hnd' Hin) as [Ha Hb].
    exists (roomName_of a b). rewrite Hpr.
    split; [destruct Hp as [->| ->]; done|]. by apply Hroom.
  - intros i a b Ha Hb.
    assert (Hin : (a, b) ∈ ps).
    { apply list_elem_of_lookup. exists i. by apply fifo_pairs_lookup. }
    destruct (assign_member ps ∅ a b Hnd' Hin) as [Ha' Hb'].
    rewrite Hpr. split; [done|]. split; [done|]. by apply Hroom.
  - done.
Qed.

Lemma join_even_fifo_witness :
  exists st' outs,
    run (E := RefEngine.engine) (joins ["A"; "B"; "C"; "D"]) initial
      = (st', outs)
    /\ size (rooms st') = 2
    /\ peerRooms st' !! "C" = Some "room-C-D"
    /\ peerRooms st' !! "D" = Some "room-C-D"
    /\ pool st' = [].
Proof.
  destruct (join_even_fifo (E := RefEngine.engine) ["A"; "B"; "C"; "D"] 1)
    as (st' & outs & Hrun & Hsize & _ & _ & Hfifo & Hpool).
  - intros w. eexists _, _. reflexivity.
  - apply (bool_decide_unpack (NoDup ["A"; "B"; "C"; "D"])).
    vm_compute. exact I.
  - exists 2. reflexivity.
  - lia.
  - repeat constructor.
  - exists st', outs. destruct (Hfifo 1 "C" "D" eq_refl eq_refl) as (HC & HD & _).
    repeat split; assumption.
Defined.

(** ** Interleavings *)

Section Schedules.
Context `{E : Engine}.

(** A [join] that is never interrupted is the handler [on_join]. *)
Lemma join_atomic (sid : string) (cb : bool) (st : State) :
  task_run 5 (mkTask sid cb AtPush) st =
    (mkTask sid cb Finished, (on_join sid cb st).1, (on_join sid cb st).2).
Proof.
  unfold on_join.
  cbn -[join_count join_enqueue join_pop join_pair Nat.leb].
  destruct (2 <=? join_count (join_enqueue sid st));
    cbn -[join_count join_enqueue join_pop join_pair Nat.leb].
  - destruct (join_pop (join_enqueue sid st)) as [p1 st2].
    cbn -[join_count join_enqueue join_pop join_pair Nat.leb].
    destruct (join_pop st2) as [p2 st3].
    cbn -[join_count join_enqueue join_pop join_pair Nat.leb].
    destruct (join_pair p1 p2 st3) as [st4 o]. simpl.
    by rewrite app_nil_r.
  - by rewrite app_nil_r.
Qed.

Lemma join_pair_pool (p1 p2 : option string) (st : State) :
  pool (join_pair p1 p2 st).1 = pool st.
Proof.
  unfold join_pair.
  destruct (truthy p1), (truthy p2); try reflexivity.
  destruct (createRouter (engine st) mediaCodecs) as [[r w]|e]; reflexivity.
Qed.

Lemma join_pop_pool (st : State) :
  exists x, pool st = pool (join_pop st).2 ++ x.
Proof.
  unfold join_pop. destruct (Redis.rPop (pool st)) as [[r|] l] eqn:Hpop; simpl.
  - exists [r]. by apply rPop_elem.
  - apply rPop_none in Hpop as [-> ->]. by exists [].
Qed.

Lemma on_disconnect_pool (sid : string) (st : State) :
  pool (handle sid Disconnect st).1 = Redis.lRem 1 sid (pool st).
Proof.
  simpl. unfold on_disconnect. simpl.
  destruct (truthy (peerRooms st !! sid)); reflexivity.
Qed.

Lemma task_step_sid (t : Task) (st : State) :
  task_sid (task_step t st).1.1 = task_sid t.
Proof.
  unfold task_step. destruct (task_pc t); try reflexivity.
  - destruct (2 <=? join_count st); reflexivity.
  - destruct (join_pop st); reflexivity.
  - destruct (join_pop st); reflexivity.
  - destruct (join_pair peer1Id peer2Id st); reflexivity.
Qed.

(** Unless it is the [lPush], a command of [join] only shrinks the pool. *)
Lemma task_step_pool (t : Task) (st : State) :
  (task_pc t = AtPush
   /\ pool (task_step t st).1.2 = task_sid t :: pool st
   /\ task_pc (task_step t st).1.1 = AtLen)
  \/ (task_pc t <> AtPush
      /\ (exists x, pool st = pool (task_step t st).1.2 ++ x)
      /\ task_pc (task_step t st).1.1 <> AtPush).
Proof.
  unfold task_step. destruct (task_pc t) eqn:Hpc; cbn -[Nat.leb join_count].
  - left. done.
  - right. split; [done|].
    destruct (2 <=? join_count st); simpl; (split; [by exists []; rewrite app_nil_r | done]).
  - right. split; [done|]. pose proof (join_pop_pool st) as Hp.
    destruct (join_pop st); simpl in *. done.
  - right. split; [done|]. pose proof (join_pop_pool st) as Hp.
    destruct (join_pop st); simpl in *. done.
  - right. split; [done|]. pose proof (join_pair_pool peer1Id peer2Id st) as Hp.
    destruct (join_pair peer1Id peer2Id st); simpl in *.
    split; [exists []; by rewrite app_nil_r | done].
  - right. split; [done|]. split; [exists []; by rewrite app_nil_r|].
    by rewrite Hpc.
Qed.

End Schedules.

(** ** What the interleaved [join] handlers do guarantee *)

Lemma submseteq_NoDup (l k : list string) : l ⊆+ k -> NoDup k -> NoDup l.
Proof.
  intros Hsub Hnd. apply submseteq_Permutation in Hsub as [k' Hk].
  rewrite Hk in Hnd. by apply NoDup_app in Hnd as [? _].
Qed.

Lemma rPop_option_list (l l' : list string) (r : option string) :
  Redis.rPop l = (r, l') -> l = l' ++ option_list r.
Proof.
  destruct r as [x|]; intros Hpop.
  - by apply rPop_elem.
  - by apply rPop_none in Hpop as [-> ->].
Qed.

Section ExactlyOnce.
Context `{E : Engine}.

Lemma matched_peers_app (o1 o2 : list Output) :
  matched_peers (o1 ++ o2) = matched_peers o1 ++ matched_peers o2.
Proof. apply omap_app. Qed.

Lemma join_pair_matched (p1 p2 : option string) (st : State) :
  matched_peers (join_pair p1 p2 st).2 ⊆+ option_list p1 ++ option_list p2.
Proof.
  unfold join_pair.
  destruct (truthy p1) as [a|] eqn:Ha; [|apply submseteq_nil_l].
  destruct (truthy p2) as [b|] eqn:Hb; [|apply submseteq_nil_l].
  apply truthy_Some in Ha as ->. apply truthy_Some in Hb as ->.
  destruct (createRouter (engine st) mediaCodecs) as [[router w]|e]; simpl.
  - done.
  - apply submseteq_nil_l.
Qed.

(** A command other than [lPush] never adds an identifier. *)
Lemma task_step_accounted (t : Task) (st : State) :
  task_pc t <> AtPush ->
  pool (task_step t st).1.2 ++ held (task_pc (task_step t st).1.1)
    ++ matched_peers (task_step t st).2
  ⊆+ pool st ++ held (task_pc t).
Proof.
  intros Hpc. unfold task_step.
  destruct (task_pc t) eqn:Hpc'; [done| | | | |].
  - destruct (2 <=? join_count st); simpl.
    + done.
    + unfold join_waiting. destruct (task_callback t); simpl; done.
  - unfold join_pop.
    destruct (Redis.rPop (pool st)) as [r l] eqn:Hpop. simpl.
    apply rPop_option_list in Hpop as ->. by rewrite !app_nil_r.
  - unfold join_pop.
    destruct (Redis.rPop (pool st)) as [r l] eqn:Hpop. simpl.
    apply rPop_option_list in Hpop as ->. rewrite app_nil_r.
    solve_submseteq.
  - pose proof (join_pair_pool peer1Id peer2Id st) as Hpool.
    pose proof (join_pair_matched peer1Id peer2Id st) as Hm.
    destruct (join_pair peer1Id peer2Id st) as [st1 o]. simpl in *.
    rewrite Hpool. by apply submseteq_skips_l.
  - simpl. rewrite Hpc'. simpl. by rewrite app_nil_r.
Qed.

Lemma accounted_rearrange (P' H' MO P H L1 L2 M : list string) :
  P' ++ H' ++ MO ⊆+ P ++ H ->
  P' ++ (L1 ++ H' ++ L2) ++ M ++ MO ⊆+ P ++ (L1 ++ H ++ L2) ++ M.
Proof.
  intros Hsub.
  trans ((P' ++ H' ++ MO) ++ L1 ++ L2 ++ M); [solve_submseteq|].
  trans ((P ++ H) ++ L1 ++ L2 ++ M); [by apply submseteq_skips_r|].
  solve_submseteq.
Qed.

Lemma lRem_first_submseteq (n : nat) (v : string) (l : list string) :
  Redis.lRem_first n v l ⊆+ l.
Proof.
  revert n. induction l as [|x l IH]; intros n; simpl; [done|].
  destruct n as [|n]; [done|].
  case_decide.
  - apply submseteq_cons. apply IH.
  - apply submseteq_skip. apply IH.
Qed.

Lemma on_disconnect_matched (sid : string) (st : State) :
  matched_peers (handle sid Disconnect st).2 = [].
Proof.
  simpl. unfold on_disconnect. simpl.
  by destruct (truthy (peerRooms st !! sid)).
Qed.

Lemma exec_accounted_inv (a : Action) (c c' : Config) :
  accounted_inv c -> exec a c = Some c' -> accounted_inv c'.
Proof.
  intros (Hnd & Hsids & Hfresh) Hexec.
  destruct a as [i|sid]; cbn -[handle task_step] in Hexec.
  - destruct (c_tasks c !! i) as [t|] eqn:Hi; [|discriminate].
    destruct (is_finished (task_pc t)); [discriminate|].
    pose proof (task_step_sid t (c_state c)) as Hsid.
    pose proof (task_step_pool t (c_state c)) as Hstep.
    pose proof (task_step_accounted t (c_state c)) as Hacc.
    assert (Hout : task_pc t = AtPush -> (task_step t (c_state c)).2 = []).
    { intros Hpc. unfold task_step. by rewrite Hpc. }
    destruct (task_step t (c_state c)) as [[t1 st1] o]. simpl in *.
    injection Hexec as <-.
    assert (Hsids' : task_sid <$> <[i:=t1]> (c_tasks c) = task_sid <$> c_tasks c).
    { rewrite list_fmap_insert, Hsid. apply list_insert_id.
      by rewrite list_lookup_fmap, Hi. }
    assert (Hlt : i < length (c_tasks c)) by (by eapply lookup_lt_Some).
    pose proof (take_drop_middle _ _ _ Hi) as Hsplit.
    set (F := fun t : Task => held (task_pc t)) in *.
    assert (Hold : accounted c =
              pool (c_state c)
              ++ ((take i (c_tasks c) ≫= F) ++ held (task_pc t)
                  ++ (drop (S i) (c_tasks c) ≫= F))
              ++ matched_peers (c_out c)).
    { unfold accounted. rewrite <- Hsplit at 1.
      by rewrite bind_app, bind_cons. }
    assert (Hnew : accounted (mkConfig st1 (<[i:=t1]> (c_tasks c)) (c_out c ++ o)) =
              pool st1
              ++ ((take i (c_tasks c) ≫= F) ++ held (task_pc t1)
                  ++ (drop (S i) (c_tasks c) ≫= F))
              ++ matched_peers (c_out c) ++ matched_peers o).
    { unfold accounted. simpl. rewrite insert_take_drop by done.
      by rewrite bind_app, bind_cons, matched_peers_app. }
    unfold accounted_inv. rewrite Hnew, Hold in *. cbn [c_tasks].
    rewrite Hsids'.
    destruct Hstep as [(Hpc & Hpool & Hpc1)|(Hpc & _ & Hpc1)].
    + rewrite Hpool, Hpc1, (Hout Hpc), Hpc in *. simpl in *.
      rewrite app_nil_r.
      split; [|split; [done|]].
      * apply NoDup_cons. split; [|done]. by apply (Hfresh i t).
      * intros j t' Hj Hpc'. destruct (decide (i = j)) as [<-|Hij].
        -- rewrite list_lookup_insert_eq in Hj by done. congruence.
        -- rewrite list_lookup_insert_ne in Hj by done.
           apply not_elem_of_cons. split; [|by apply (Hfresh j t')].
           intros Heq. apply Hij.
           eapply (NoDup_lookup _ i j (task_sid t)); [exact Hsids| |].
           ++ by rewrite list_lookup_fmap, Hi.
           ++ rewrite list_lookup_fmap, Hj. simpl. by rewrite Heq.
    + specialize (Hacc Hpc).
      pose proof (accounted_rearrange _ _ _ _ _
                    (take i (c_tasks c) ≫= F) (drop (S i) (c_tasks c) ≫= F)
                    (matched_peers (c_out c)) Hacc) as Hsub.
      split; [by eapply submseteq_NoDup|]. split; [done|].
      intros j t' Hj Hpc' Hin. destruct (decide (i = j)) as [<-|Hij].
      * rewrite list_lookup_insert_eq in Hj by done. congruence.
      * rewrite list_lookup_insert_ne in Hj by done.
        apply (Hfresh j t' Hj Hpc'). by eapply elem_of_submseteq.
  - pose proof (on_disconnect_pool sid (c_state c)) as Hp.
    pose proof (on_disconnect_matched sid (c_state c)) as Hm.
    destruct (handle sid Disconnect (c_state c)) as [st1 o].
    cbn [fst snd] in Hp, Hm. simpl in Hexec. injection Hexec as <-.
    assert (Hsub : accounted (mkConfig st1 (c_tasks c) (c_out c ++ o))
                   ⊆+ accounted c).
    { unfold accounted. cbn -[Redis.lRem].
      rewrite Hp, matched_peers_app, Hm, app_nil_r.
      apply submseteq_skips_r. apply (lRem_first_submseteq 1). }
    split; [by eapply submseteq_NoDup|]. split; [done|].
    intros j t Hj Hpc Hin. apply (Hfresh j t Hj Hpc).
    by eapply elem_of_submseteq.
Qed.

Lemma run_schedule_accounted_inv (s : list Action) (c c' : Config) :
  accounted_inv c -> run_schedule s c = Some c' -> accounted_inv c'.
Proof.
  revert c. induction s as [|a s IH]; intros c Hinv Hrun; simpl in Hrun.
  - by injection Hrun as <-.
  - destruct (exec a c) as [c1|] eqn:Hexec; [|discriminate].
    apply (IH c1); [|done]. by apply (exec_accounted_inv a c).
Qed.

Lemma spawn_accounted_inv (st0 : State) (peers : list string) :
  NoDup (pool st0) ->
  NoDup peers ->
  (forall p, p ∈ peers -> p ∉ pool st0) ->
  accounted_inv (spawn st0 peers).
Proof.
  intros Hnd Hpeers Hfresh.
  assert (Hheld : forall l : list string,
            map (fun p => mkTask p true AtPush) l
              ≫= (fun t => held (task_pc t)) = []).
  { induction l as [|p l IH]; [done|].
    cbn [map]. rewrite bind_cons, IH. reflexivity. }
  unfold accounted_inv, accounted, spawn. cbn [c_state c_tasks c_out].
  rewrite Hheld. simpl. rewrite app_nil_r.
  split; [done|]. split.
  - replace (task_sid <$> map (fun p => mkTask p true AtPush) peers)
      with peers; [done|].
    clear. induction peers as [|p peers IH]; [done|]. simpl. by f_equal.
  - intros j t Hj _. rewrite list_lookup_fmap in Hj.
    destruct (peers !! j) as [p|] eqn:Hp; [|discriminate].
    injection Hj as <-. simpl. apply Hfresh.
    apply list_elem_of_lookup. by exists j.
Qed.

(** Whatever the interleaving, when the joining sockets are pairwise
    distinct and not queued already, no socket is matched twice and (the two
    [matched] events of a pairing being both in the list) no socket is
    paired with itself. *)
Lemma matched_at_most_once (st0 : State) (peers : list string)
    (s : list Action) (c : Config) :
  NoDup (pool st0) ->
  NoDup peers ->
  (forall p, p ∈ peers -> p ∉ pool st0) ->
  run_schedule s (spawn st0 peers) = Some c ->
  NoDup (matched_peers (c_out c)).
Proof.
  intros Hnd Hpeers Hfresh Hrun.
  assert (Hinv : accounted_inv c).
  { apply (run_schedule_accounted_inv s (spawn st0 peers)); [|done].
    by apply spawn_accounted_inv. }
  destruct Hinv as (Hacc & _). unfold accounted in Hacc.
  apply NoDup_app in Hacc as (_ & _ & Hacc).
  by apply NoDup_app in Hacc as (_ & _ & Hacc).
Qed.

End ExactlyOnce.

(** C3 (amended).  If the sockets that emit [join] are pairwise distinct
    and none of them is queued already, the waiting pool holds no duplicate
    at any point of any interleaving of the handlers' Redis commands with
    disconnects, and removing a socket from it a second time changes
    nothing. *)
Theorem pool_never_duplicates `{E : Engine} (st0 : State)
    (peers : list string) (s : list Action) (c : Config) :
  NoDup (pool st0) ->
  NoDup peers ->
  (forall p, p ∈ peers -> p ∉ pool st0) ->
  run_schedule s (spawn st0 peers) = Some c ->
  NoDup (pool (c_state c))
  /\ forall v, Redis.lRem 1 v (Redis.lRem 1 v (pool (c_state c)))
               = Redis.lRem 1 v (pool (c_state c)).
Proof.
  intros Hnd Hpeers Hfresh Hrun.
  assert (Hinv : accounted_inv c).
  { apply (run_schedule_accounted_inv s (spawn st0 peers)); [|done].
    by apply spawn_accounted_inv. }
  destruct Hinv as (Hacc & _). unfold accounted in Hacc.
  apply NoDup_app in Hacc as (Hpool & _).
  split; [done|]. intros v. by apply lRem_one_idempotent.
Qed.

Lemma pool_never_duplicates_witness :
  exists c,
    run_schedule (E := RefEngine.engine)
      [Advance 0; Advance 1; Drop "B"; Advance 2; Advance 0]
      (spawn initial ["A"; "B"; "C"]) = Some c
    /\ NoDup (pool (c_state c)).
Proof.
  eexists. split; [reflexivity|].
  eapply (pool_never_duplicates (E := RefEngine.engine) initial
            ["A"; "B"; "C"]
            [Advance 0; Advance 1; Drop "B"; Advance 2; Advance 0]).
  - constructor.
  - apply (bool_decide_unpack (NoDup ["A"; "B"; "C"])). vm_compute. exact I.
  - intros p _. apply not_elem_of_nil.
  - reflexivity.
Defined.

(** C3, as stated, fails: a socket that emits [join] twice is queued
    twice.  Between the two [lPush] and the pops the pool is [A; A]; run to
    completion, the second [join] pairs the socket with itself. *)
Lemma pool_duplicate_on_double_join :
  (exists c,
     run_schedule (E := RefEngine.engine) [Advance 0; Advance 1]
       (spawn initial ["A"; "A"]) = Some c
     /\ pool (c_state c) = ["A"; "A"]
     /\ ~ NoDup (pool (c_state c)))
  /\ (let st := (run (E := RefEngine.engine) (joins ["A"; "A"]) initial).1 in
      pool st = [] /\ peerRooms st !! "A" = Some "room-A-A")
  /\ (let st := (run (E := RefEngine.engine) (joins ["A"]) initial).1 in
      pool st = ["A"] /\ peerRooms st !! "A" = None).
Proof.
  split; [|split].
  - eexists. split; [reflexivity|]. split; [reflexivity|].
    simpl. intros Hnd. apply NoDup_cons in Hnd as [Hin _].
    apply Hin. by left.
  - vm_compute. split; reflexivity.
  - vm_compute. split; reflexivity.
Qed.

(** C1.  Four sockets join at once and the handlers interleave as in
    [race_schedule].  [A]'s handler pops [A] and [B]; [B]'s handler pops [C]
    and then nothing, and drops [C].  At the end there is one room, [D]
    waits alone, and [C] is neither queued nor in a room. *)
Theorem race_drops_a_peer :
  exists c,
    run_schedule (E := RefEngine.engine) race_schedule
      (spawn initial ["A"; "B"; "C"; "D"]) = Some c
    /\ all_finished c = true
    /\ size (rooms (c_state c)) = 1
    /\ peerRooms (c_state c) !! "A" = Some "room-A-B"
    /\ peerRooms (c_state c) !! "B" = Some "room-A-B"
    /\ peerRooms (c_state c) !! "C" = None
    /\ peerRooms (c_state c) !! "D" = None
    /\ pool (c_state c) = ["D"]
    /\ emissions (c_out c) =
         [("A", None, EvMatched "room-A-B"); ("B", None, EvMatched "room-A-B")]
    /\ replies (c_out c) = [PStatusWaiting; PStatusWaiting].
Proof.
  eexists. split; [vm_compute; reflexivity|].
  vm_compute. repeat split; reflexivity.
Qed.

(** ** Negotiation handlers *)

Section Handlers.
Context `{E : Engine}.

Lemma on_produce_ok (sid transportId : string) (kind : MediaKind)
    (rtp : list Codec) (st : State) (t : WebRtcTransport) (p : Producer)
    (w : worker) :
  JsMap.get transportId (transports st) = Some t ->
  produce (engine st) t kind rtp = Ok (p, w) ->
  handle sid (Produce transportId kind rtp) st =
    (set_engine w st,
     match truthy (peerRooms st !! sid) with
     | Some roomName =>
         [EmitTo roomName (Some sid) (EvNewProducer (producer_id p))]
     | None => []
     end ++ [Reply (PId (producer_id p))]).
Proof.
  intros Hget Hprod. simpl. unfold on_produce. rewrite Hget, Hprod. reflexivity.
Qed.



End Handlers.


(** C10 (amended).  A [produce] request naming a registered transport is
    answered with the new producer's identifier whenever the engine creates
    the producer, also when the socket has no entry in [peerRooms]; then
    nothing is broadcast, the producer exists in the engine and the socket
    still has no room. *)
Theorem produce_without_room `{E : Engine} (sid transportId : string)
    (kind : MediaKind) (rtp : list Codec) (st : State)
    (t : WebRtcTransport) (p : Producer) (w : worker) :
  JsMap.get transportId (transports st) = Some t ->
  peerRooms st !! sid = None ->
  produce (engine st) t kind rtp = Ok (p, w) ->
  let '(st', outs) := handle sid (Produce transportId kind rtp) st in
  replies outs = [PId (producer_id p)]
  /\ emissions outs = []
  /\ (exists i, producer_info (engine st') (producer_id p) = Some i
                /\ p_kind i = kind)
  /\ peerRooms st' !! sid = None.
Proof.
  intros Hget Hroom Hprod.
  rewrite (on_produce_ok sid transportId kind rtp st t p w Hget Hprod).
  rewrite Hroom. simpl. repeat split; try done.
  by apply (produce_registers _ _ _ _ _ _ Hprod).
Qed.

(** C5 (amended).  Every [produce] call for which the engine creates a
    producer emits one [new-producer] broadcast, addressed to the room
    recorded for the sender and excluding the sender.  Nothing is enforced
    per media kind: a second call with the same kind emits a second
    broadcast. *)
Theorem produce_broadcasts_every_call `{E : Engine} (sid transportId room : string)
    (kind : MediaKind) (rtp rtp' : list Codec) (st : State)
    (t : WebRtcTransport) (p1 p2 : Producer) (w1 w2 : worker) :
  JsMap.get transportId (transports st) = Some t ->
  peerRooms st !! sid = Some room -> room <> "" ->
  produce (engine st) t kind rtp = Ok (p1, w1) ->
  produce w1 t kind rtp' = Ok (p2, w2) ->
  handle sid (Produce transportId kind rtp) st =
    (set_engine w1 st,
     [EmitTo room (Some sid) (EvNewProducer (producer_id p1));
      Reply (PId (producer_id p1))])
  /\ handle sid (Produce transportId kind rtp') (set_engine w1 st) =
       (set_engine w2 st,
        [EmitTo room (Some sid) (EvNewProducer (producer_id p2));
         Reply (PId (producer_id p2))]).
Proof.
  intros Hget Hroom Hne Hp1 Hp2. split.
  - rewrite (on_produce_ok sid transportId kind rtp st t p1 w1 Hget Hp1).
    rewrite Hroom. simpl. by destruct (decide (room = "")).
  - rewrite (on_produce_ok sid transportId kind rtp' (set_engine w1 st) t p2 w2)
      by done.
    simpl. rewrite Hroom. simpl. by destruct (decide (room = "")).
Qed.

(** C7 (amended).  [resume-consumer] does nothing: whatever the consumer
    identifier, the state (the engine's consumers included) is unchanged and
    nothing is sent, neither an acknowledgement nor an error. *)
Theorem resume_consumer_is_noop `{E : Engine} (sid consumerId : string)
    (st : State) :
  handle sid (ResumeConsumer consumerId) st = (st, [])
  /\ consumer_paused (engine (handle sid (ResumeConsumer consumerId) st).1)
       consumerId
     = consumer_paused (engine st) consumerId.
Proof. split; reflexivity. Qed.

(** C4 (amended).  When a socket that is in a room disconnects, the server
    emits one [peer-disconnected] broadcast addressed to that room, excluding
    the sender, and removes the socket's [peerRooms] entry and one occurrence
    of it from the waiting pool.  Transports, rooms and the engine are left
    as they were, so a later [connectTransport] finds every transport it
    found before. *)
Theorem disconnect_keeps_transports `{E : Engine} (sid room : string)
    (st : State) :
  peerRooms st !! sid = Some room -> room <> "" ->
  let '(st', outs) := handle sid Disconnect st in
  emissions outs = [(room, Some sid, EvPeerDisconnected)]
  /\ peerRooms st' = delete sid (peerRooms st)
  /\ pool st' = Redis.lRem 1 sid (pool st)
  /\ transports st' = transports st
  /\ rooms st' = rooms st
  /\ engine st' = engine st
  /\ forall any transportId dtls,
       (handle any (ConnectTransport transportId dtls) st').2
       = (handle any (ConnectTransport transportId dtls) st).2.
Proof.
  intros Hroom Hne. simpl. unfold on_disconnect. simpl.
  rewrite Hroom. simpl. destruct (decide (room = "")); [done|].
  simpl. repeat split; try done.
  intros any transportId dtls. unfold on_connectTransport. simpl.
  destruct (JsMap.get transportId (transports st)) as [t|]; [|done].
  by destruct (connect (engine st) t dtls).
Qed.

(** ** Room life cycle *)

Section Rooms.
Context `{E : Engine}.

Lemma on_join_rooms (sid : string) (cb : bool) (st : State) :
  rooms (on_join sid cb st).1 = rooms st
  \/ pairing sid st (on_join sid cb st).1.
Proof.
  unfold on_join.
  destruct (2 <=? join_count (join_enqueue sid st)); [|by left].
  unfold join_pop, join_enqueue, Redis.lPush. cbn -[Redis.rPop].
  destruct (Redis.rPop (sid :: pool st)) as [r1 l1] eqn:H1.
  cbn -[Redis.rPop].
  destruct (Redis.rPop l1) as [r2 l2] eqn:H2.
  unfold join_pair.
  destruct (truthy r1) as [p1|] eqn:Hp1; [|by left].
  destruct (truthy r2) as [p2|] eqn:Hp2; [|by left].
  cbn -[Redis.rPop].
  destruct (createRouter (engine st) mediaCodecs) as [[router w]|e];
    [|by left].
  right. exists p1, p2, router. cbn -[Redis.rPop].
  apply truthy_Some in Hp1 as ->. apply truthy_Some in Hp2 as ->.
  apply rPop_elem in H1. apply rPop_elem in H2. subst l1.
  rewrite H1, <- app_assoc. done.
Qed.

Lemma step_rooms (i : Input) (st : State) :
  rooms (step i st).1 = rooms st
  \/ exists sid cb, i = FromSocket sid (Join cb) /\ pairing sid st (step i st).1.
Proof.
  destruct i as [sid req|transportId s].
  - destruct req; simpl.
    + by left.
    + destruct (on_join_rooms sid callback st) as [H|H]; [by left|].
      right. by exists sid, callback.
    + left. unfold on_getRouterRtpCapabilities.
      by destruct (rooms st !! roomName).
    + left. unfold on_createWebRtcTransport.
      destruct (rooms st !! roomName) as [router|]; [|done].
      by destruct (createWebRtcTransport _ _ _) as [[t w]|e].
    + left. unfold on_connectTransport.
      destruct (JsMap.get _ _) as [t|]; [|done].
      by destruct (connect _ _ _).
    + left. unfold on_produce.
      destruct (JsMap.get _ _) as [t|]; [|done].
      by destruct (produce _ _ _ _) as [[p w]|e].
    + left. unfold on_consume.
      destruct (match rooms st !! roomName with Some _ => _ | None => _ end);
        [|done].
      destruct (find_recv_transport _ _) as [t|]; [|done].
      by destruct (consume _ _ _ _ _) as [[c w]|e].
    + by left.
    + left. unfold on_disconnect. simpl.
      by destruct (truthy (peerRooms st !! sid)).
  - left. simpl. by destruct s.
Qed.

Lemma run_rooms_mono (tr : list Input) (st : State) :
  dom (rooms st) ⊆ dom (rooms (run tr st).1).
Proof.
  revert st. induction tr as [|i tr IH]; intros st; [done|].
  simpl. specialize (IH (step i st).1).
  pose proof (step_rooms i st) as Hstep.
  destruct (step i st) as [st1 o1]. simpl in *.
  destruct (run tr st1) as [st2 o2]. simpl in *.
  etrans; [|exact IH].
  destruct Hstep as [->|(sid & cb & _ & p1 & p2 & router & _ & -> & _)];
    [done|].
  rewrite dom_insert_L. apply union_subseteq_r.
Qed.

Lemma step_sio (i : Input) (st : State) :
  sio_own_rooms st -> sio_own_rooms (step i st).1.
Proof.
  intros Hown.
  assert (Hleave : forall sid, sio_own_rooms (sio_leave_all sid st)).
  { intros sid room members. simpl. rewrite lookup_fmap.
    destruct (sio st !! room) as [m|] eqn:Hm; [|discriminate].
    intros [= <-]. specialize (Hown room m Hm). set_solver. }
  destruct i as [sid req|transportId s].
  - destruct req; simpl; try exact Hown.
    + intros room members. simpl. rewrite lookup_insert.
      case_decide; [intros [= <-]; by subst | apply Hown].
    + unfold on_join.
      destruct (2 <=? join_count (join_enqueue sid st)); [|exact Hown].
      destruct (join_pop (join_enqueue sid st)) as [r1 st2] eqn:H1.
      destruct (join_pop st2) as [r2 st3] eqn:H2.
      assert (sio st3 = sio st) as Hs.
      { unfold join_pop in *.
        destruct (Redis.rPop (pool (join_enqueue sid st))).
        injection H1 as _ <-.
        destruct (Redis.rPop _). injection H2 as _ <-. done. }
      unfold join_pair, sio_own_rooms.
      destruct (truthy r1), (truthy r2); simpl; rewrite ?Hs; try exact Hown.
      destruct (createRouter _ _) as [[router w]|e]; simpl; rewrite ?Hs;
        exact Hown.
    + unfold on_getRouterRtpCapabilities.
      by destruct (rooms st !! roomName).
    + unfold on_createWebRtcTransport.
      destruct (rooms st !! roomName) as [router|]; [|done].
      by destruct (createWebRtcTransport _ _ _) as [[t w]|e].
    + unfold on_connectTransport.
      destruct (JsMap.get _ _) as [t|]; [|done].
      by destruct (connect _ _ _).
    + unfold on_produce.
      destruct (JsMap.get _ _) as [t|]; [|done].
      by destruct (produce _ _ _ _) as [[p w]|e].
    + unfold on_consume.
      destruct (match rooms st !! roomName with Some _ => _ | None => _ end);
        [|done].
      destruct (find_recv_transport _ _) as [t|]; [|done].
      by destruct (consume _ _ _ _ _) as [[c w]|e].
    + unfold on_disconnect. simpl.
      destruct (truthy (peerRooms st !! sid)); apply Hleave.
  - simpl. by destruct s.
Qed.

Lemma run_sio (tr : list Input) (st : State) :
  sio_own_rooms st -> sio_own_rooms (run tr st).1.
Proof.
  revert st. induction tr as [|i tr IH]; intros st Hown; [done|].
  simpl. specialize (IH (step i st).1 (step_sio i st Hown)).
  destruct (step i st) as [st1 o1]. simpl in *.
  by destruct (run tr st1) as [st2 o2].
Qed.

(** No handler puts a socket into a room named after a pairing, so a
    broadcast addressed to a room reaches at most the socket whose own
    identifier is that name. *)
Lemma broadcast_recipients (tr : list Input) (room : string)
    (except : option string) :
  recipients (run tr initial).1 room except ⊆ {[room]}.
Proof.
  assert (Hown : sio_own_rooms (run tr initial).1).
  { apply run_sio. intros r m. simpl. by rewrite lookup_empty. }
  unfold recipients.
  destruct (sio (run tr initial).1 !! room) as [m|] eqn:Hm; simpl.
  - specialize (Hown room m Hm). set_solver.
  - set_solver.
Qed.

End Rooms.


(** The broadcasts addressed to [room-A-B] are delivered to no socket:
    neither [new-producer] nor [peer-disconnected] reaches [B], while the
    [matched] event addressed to [B] itself does. *)
Lemma room_broadcasts_reach_nobody :
  recipients (Scenario.after Scenario.negotiate) "room-A-B" (Some "A") = ∅
  /\ recipients (Scenario.after Scenario.negotiate) "B" None = {[ "B" ]}.
Proof. vm_compute. split; reflexivity. Qed.


Lemma produce_without_room_witness :
  let st := Scenario.after
              (Scenario.pair_up
                 ++ [FromSocket "C" (CreateWebRtcTransport "room-A-B" true)]) in
  let '(st', outs) :=
    handle "C" (Produce "transport-1" video [Scenario.vp8]) st in
  replies outs = [PId "producer-2"]
  /\ emissions outs = []
  /\ (exists i, producer_info (engine st') "producer-2" = Some i
                /\ p_kind i = video)
  /\ peerRooms st' !! "C" = None.
Proof.
  intros st.
  eapply (produce_without_room (E := RefEngine.engine) "C" "transport-1"
            video [Scenario.vp8] st _ (mkProducer "producer-2")).
  - vm_compute. reflexivity.
  - vm_compute. reflexivity.
  - vm_compute. reflexivity.
Defined.

Lemma produce_broadcasts_every_call_witness :
  exists w1 w2,
    handle "A" (Produce "transport-1" video [Scenario.vp8])
      (Scenario.after Scenario.open_send)
    = (set_engine w1 (Scenario.after Scenario.open_send),
       [EmitTo "room-A-B" (Some "A") (EvNewProducer "producer-2");
        Reply (PId "producer-2")])
    /\ handle "A" (Produce "transport-1" video [Scenario.vp8])
         (set_engine w1 (Scenario.after Scenario.open_send))
       = (set_engine w2 (Scenario.after Scenario.open_send),
          [EmitTo "room-A-B" (Some "A") (EvNewProducer "producer-3");
           Reply (PId "producer-3")]).
Proof.
  eexists _, _.
  eapply (produce_broadcasts_every_call (E := RefEngine.engine) "A"
            "transport-1" "room-A-B" video [Scenario.vp8] [Scenario.vp8]
            (Scenario.after Scenario.open_send) _
            (mkProducer "producer-2") (mkProducer "producer-3")).
  - vm_compute. reflexivity.
  - vm_compute. reflexivity.
  - discriminate.
  - vm_compute. reflexivity.
  - vm_compute. reflexivity.
Defined.

Lemma disconnect_keeps_transports_witness :
  let '(st', outs) := handle "A" Disconnect (Scenario.after Scenario.negotiate) in
  emissions outs = [("room-A-B", Some "A", EvPeerDisconnected)]
  /\ peerRooms st' = delete "A" (peerRooms (Scenario.after Scenario.negotiate))
  /\ pool st' = Redis.lRem 1 "A" (pool (Scenario.after Scenario.negotiate))
  /\ transports st' = transports (Scenario.after Scenario.negotiate)
  /\ rooms st' = rooms (Scenario.after Scenario.negotiate)
  /\ engine st' = engine (Scenario.after Scenario.negotiate)
  /\ forall any transportId dtls,
       (handle any (ConnectTransport transportId dtls) st').2
       = (handle any (ConnectTransport transportId dtls)
            (Scenario.after Scenario.negotiate)).2.
Proof.
  apply (disconnect_keeps_transports (E := RefEngine.engine) "A" "room-A-B"
           (Scenario.after Scenario.negotiate)).
  - vm_compute. reflexivity.
  - discriminate.
Defined.

(** ** Where the specification and the server differ *)

(** C4, as stated, fails: after [A] has disconnected, [A]'s transport is
    still registered and [connectTransport] on its identifier answers
    [{ connected: true }]; [A]'s producer is still in the engine. *)
Lemma transport_found_after_disconnect :
  let st := Scenario.after (Scenario.negotiate ++ [FromSocket "A" Disconnect]) in
  (exists t, JsMap.get "transport-1" (transports st) = Some t
             /\ socketId (appData t) = "A")
  /\ replies (handle "B" (ConnectTransport "transport-1" "dtls") st).2
     = [PConnected]
  /\ replies (handle "B" (ConnectTransport "transport-1" "dtls") st).2
     <> [PError "Transport not found"]
  /\ is_Some (producer_info (engine st) "producer-2")
  /\ peerRooms st !! "A" = None.
Proof.
  vm_compute. split; [|split; [|split; [|split]]].
  - eexists. split; reflexivity.
  - reflexivity.
  - discriminate.
  - eexists. reflexivity.
  - reflexivity.
Qed.

(** C5, as stated, fails: [A] produces video twice; both calls succeed,
    both producers exist, and each call emits its own broadcast. *)
Lemma second_produce_broadcasts_again :
  let '(st, outs) :=
    run (E := RefEngine.engine)
      (Scenario.open_send
         ++ [FromSocket "A" (Produce "transport-1" video [Scenario.vp8]);
             FromSocket "A" (Produce "transport-1" video [Scenario.vp8])])
      initial in
  filter (fun e => e.1.1 = "room-A-B") (emissions outs)
  = [("room-A-B", Some "A", EvNewProducer "producer-2");
     ("room-A-B", Some "A", EvNewProducer "producer-3")]
  /\ p_kind <$> producer_info (engine st) "producer-2" = Some video
  /\ p_kind <$> producer_info (engine st) "producer-3" = Some video.
Proof. vm_compute. repeat split; reflexivity. Qed.

(** C7, as stated, fails: the paused consumer is still paused after
    [resume-consumer], and an unknown identifier gets no error. *)
Lemma consumer_still_paused_after_resume :
  let st := Scenario.after Scenario.negotiate in
  consumer_paused (engine st) "consumer-4" = Some true
  /\ consumer_paused
       (engine (handle "B" (ResumeConsumer "consumer-4") st).1) "consumer-4"
     = Some true
  /\ (handle "B" (ResumeConsumer "consumer-4") st).2 = []
  /\ consumer_paused (engine st) "no-such-consumer" = None
  /\ (handle "B" (ResumeConsumer "no-such-consumer") st).2 = [].
Proof. vm_compute. repeat split; reflexivity. Qed.



(** C10, as stated, fails: [C], which is in no room, sends [produce] for a
    registered transport with parameters the engine refuses; the request gets
    no reply at all and the handler's promise rejects. *)
Lemma refused_produce_gets_no_reply :
  let st := Scenario.after
              (Scenario.pair_up
                 ++ [FromSocket "C" (CreateWebRtcTransport "room-A-B" true)]) in
  is_Some (JsMap.get "transport-1" (transports st))
  /\ peerRooms st !! "C" = None
  /\ (handle "C" (Produce "transport-1" video []) st).2
     = [Unhandled (JsError "missing codecs")]
  /\ replies (handle "C" (Produce "transport-1" video []) st).2 = [].
Proof.
  vm_compute. split; [by eexists|]. repeat split; reflexivity.
Qed.

(** C2.  Four distinct sockets join with no disconnect, and their handlers
    interleave.  With [race_schedule] one room exists at the end instead of
    two and [C] is in none; with [alternating_schedule] two rooms exist but
    [A] is paired with [C] and [B] with [D], where first-come first-served
    pairs [A] with [B] and [C] with [D]. *)
Theorem interleaved_joins_break_pairing :
  (pairing_outcome (E := RefEngine.engine)
     <$> run_schedule race_schedule (spawn initial ["A"; "B"; "C"; "D"])
   = Some (1, [Some "room-A-B"; Some "room-A-B"; None; None], ["D"]))
  /\ (pairing_outcome (E := RefEngine.engine)
        <$> run_schedule alternating_schedule
              (spawn initial ["A"; "B"; "C"; "D"])
      = Some (2, [Some "room-A-C"; Some "room-B-D";
                  Some "room-A-C"; Some "room-B-D"], []))
  /\ fifo_pairs ["A"; "B"; "C"; "D"] = [("A", "B"); ("C", "D")]
  /\ length ["A"; "B"; "C"; "D"] / 2 = 2.
Proof.
  split; [vm_compute; reflexivity|].
  split; [vm_compute; reflexivity|].
  split; reflexivity.
Qed.

(** A request for the capabilities of a room that is not in the table gets
    no reply at all. *)
Lemma getRouterRtpCapabilities_absent `{E : Engine} (sid roomName : string)
    (st : State) :
  rooms st !! roomName = None ->
  handle sid (GetRouterRtpCapabilities roomName) st = (st, []).
Proof.
  intros Hroom. simpl. unfold on_getRouterRtpCapabilities. by rewrite Hroom.
Qed.

(** C8.  [getRouterRtpCapabilities] for a room that does not exist sends
    nothing back, where [createWebRtcTransport] for the same room answers
    with an error. *)
Theorem getRouterRtpCapabilities_unknown_room_is_silent :
  let st := Scenario.after Scenario.pair_up in
  rooms st !! "room-X-Y" = None
  /\ handle "A" (GetRouterRtpCapabilities "room-X-Y") st = (st, [])
  /\ replies (handle "A" (GetRouterRtpCapabilities "room-X-Y") st).2 = []
  /\ replies (handle "A" (CreateWebRtcTransport "room-X-Y" true) st).2
     = [PError "Router not found for room: room-X-Y"].
Proof.
  intros st. split; [vm_compute; reflexivity|]. split.
  - apply getRouterRtpCapabilities_absent. vm_compute. reflexivity.
  - vm_compute. split; reflexivity.
Qed.

(** * Further properties of the handlers *)

(** ** Replies *)

Section Replies.
Context `{E : Engine}.

Lemma run_app (tr1 tr2 : list Input) (st : State) :
  run (tr1 ++ tr2) st =
    ((run tr2 (run tr1 st).1).1, (run tr1 st).2 ++ (run tr2 (run tr1 st).1).2).
Proof.
  revert st. induction tr1 as [|i tr1 IH]; intros st; simpl.
  - by destruct (run tr2 st).
  - destruct (step i st) as [st1 o1]. rewrite IH.
    destruct (run tr1 st1) as [st2 o2]. simpl.
    destruct (run tr2 st2) as [st3 o3]. simpl. by rewrite app_assoc.
Qed.

(** The outputs of [join]: nothing, the waiting reply, one unhandled
    rejection, or the two [matched] events. *)
Lemma on_join_outputs (sid : string) (cb : bool) (st : State) :
  let outs := (on_join sid cb st).2 in
  outs = [] \/ outs = [Reply PStatusWaiting]
  \/ (exists e, outs = [Unhandled e])
  \/ (exists p1 p2,
        outs = [EmitTo p1 None (EvMatched (roomName_of p1 p2));
                EmitTo p2 None (EvMatched (roomName_of p1 p2))]).
Proof.
  unfold on_join, join_waiting, join_pair.
  destruct (2 <=? join_count (join_enqueue sid st)).
  - destruct (join_pop (join_enqueue sid st)) as [r1 st2].
    destruct (join_pop st2) as [r2 st3].
    destruct (truthy r1) as [p1|]; [|by left].
    destruct (truthy r2) as [p2|]; [|by left].
    destruct (createRouter (engine st3) mediaCodecs) as [[router w]|e]; simpl.
    + right. right. right. by exists p1, p2.
    + right. right. left. by exists e.
  - destruct cb; simpl; auto.
Qed.

End Replies.

(** X1.  No handler calls its acknowledgement callback twice, and a handler
    whose promise rejects has not called it at all. *)
Theorem replies_at_most_once `{E : Engine} (sid : string) (req : Request)
    (st : State) :
  length (replies (handle sid req st).2) <= 1
  /\ forall e, Unhandled e ∈ (handle sid req st).2 ->
       replies (handle sid req st).2 = [].
Proof.
  destruct req; simpl.
  - split; [lia|done].
  - destruct (on_join_outputs sid callback st)
      as [->|[->|[[e ->]|(p1 & p2 & ->)]]]; simpl; split; try lia; try done.
    intros e Hin. apply list_elem_of_singleton in Hin. discriminate.
  - unfold on_getRouterRtpCapabilities.
    destruct (rooms st !! roomName); simpl; split; try lia; try done.
    intros e Hin. apply list_elem_of_singleton in Hin. discriminate.
  - unfold on_createWebRtcTransport.
    destruct (rooms st !! roomName) as [router|]; simpl.
    + destruct (createWebRtcTransport _ _ _) as [[t w]|e]; simpl;
        (split; [lia|]); intros e' Hin;
        apply list_elem_of_singleton in Hin; discriminate.
    + split; [lia|]. intros e Hin.
      apply list_elem_of_singleton in Hin. discriminate.
  - unfold on_connectTransport.
    destruct (JsMap.get _ _) as [t|]; simpl.
    + destruct (connect _ _ _) as [w|e]; simpl; (split; [lia|]); [|done].
      intros e' Hin. apply list_elem_of_singleton in Hin. discriminate.
    + split; [lia|]. intros e Hin.
      apply list_elem_of_singleton in Hin. discriminate.
  - unfold on_produce.
    destruct (JsMap.get _ _) as [t|]; simpl.
    + destruct (produce _ _ _ _) as [[p w]|e]; simpl.
      * destruct (truthy (peerRooms st !! sid)); simpl; (split; [lia|]);
          intros e' Hin; repeat (apply elem_of_cons in Hin as [Hin|Hin];
                                 [discriminate|]);
          by apply elem_of_nil in Hin.
      * split; [lia|done].
    + split; [lia|]. intros e Hin.
      apply list_elem_of_singleton in Hin. discriminate.
  - unfold on_consume.
    destruct (match rooms st !! roomName with Some _ => _ | None => _ end);
      simpl.
    + destruct (find_recv_transport _ _) as [t|]; simpl.
      * destruct (consume _ _ _ _ _) as [[c w]|e]; simpl; (split; [lia|]);
          intros e' Hin; apply list_elem_of_singleton in Hin; discriminate.
      * split; [lia|]. intros e Hin.
        apply list_elem_of_singleton in Hin. discriminate.
    + split; [lia|]. intros e Hin.
      apply list_elem_of_singleton in Hin. discriminate.
  - split; [lia|done].
  - unfold on_disconnect. simpl.
    destruct (truthy (peerRooms st !! sid)); simpl; (split; [lia|]); [|done].
    intros e Hin. apply list_elem_of_singleton in Hin. discriminate.
Qed.

(** X2.  [createWebRtcTransport] and [consume] wrap their body in
    [try]/[catch]: whatever the state and whatever the engine does, each
    request gets exactly one reply and nothing else is sent. *)
Theorem create_and_consume_always_reply `{E : Engine} (sid : string)
    (st : State) :
  (forall roomName isProd,
     exists p, (handle sid (CreateWebRtcTransport roomName isProd) st).2
               = [Reply p])
  /\ (forall roomName producerId caps,
        exists p, (handle sid (Consume roomName producerId caps) st).2
                  = [Reply p]).
Proof.
  split.
  - intros roomName isProd. simpl. unfold on_createWebRtcTransport.
    destruct (rooms st !! roomName) as [router|]; [|by eexists].
    destruct (createWebRtcTransport _ _ _) as [[t w]|e]; by eexists.
  - intros roomName producerId caps. simpl. unfold on_consume.
    destruct (match rooms st !! roomName with Some _ => _ | None => _ end);
      [|by eexists].
    destruct (find_recv_transport _ _) as [t|]; [|by eexists].
    destruct (consume _ _ _ _ _) as [[c w]|e]; by eexists.
Qed.

(** X3.  A request that is answered with [{ error }] has changed nothing
    on the server: neither the tables, nor the pool, nor the engine. *)
Theorem error_reply_leaves_state `{E : Engine} (sid : string) (req : Request)
    (st : State) (message : string) :
  PError message ∈ replies (handle sid req st).2 ->
  (handle sid req st).1 = st.
Proof.
  destruct req; simpl.
  - intros Hin. by apply elem_of_nil in Hin.
  - destruct (on_join_outputs sid callback st)
      as [->|[->|[[e ->]|(p1 & p2 & ->)]]]; simpl; intros Hin.
    + by apply elem_of_nil in Hin.
    + apply list_elem_of_singleton in Hin. discriminate.
    + by apply elem_of_nil in Hin.
    + by apply elem_of_nil in Hin.
  - unfold on_getRouterRtpCapabilities. by destruct (rooms st !! roomName).
  - unfold on_createWebRtcTransport.
    destruct (rooms st !! roomName) as [router|]; [|done].
    destruct (createWebRtcTransport _ _ _) as [[t w]|e]; [|done].
    simpl. intros Hin. apply list_elem_of_singleton in Hin. discriminate.
  - unfold on_connectTransport.
    destruct (JsMap.get _ _) as [t|]; [|done].
    destruct (connect _ _ _) as [w|e]; [|done].
    simpl. intros Hin. apply list_elem_of_singleton in Hin. discriminate.
  - unfold on_produce.
    destruct (JsMap.get _ _) as [t|]; [|done].
    destruct (produce _ _ _ _) as [[p w]|e]; [|done].
    destruct (truthy (peerRooms (set_engine w st) !! sid)); simpl;
      intros Hin; apply list_elem_of_singleton in Hin; discriminate.
  - unfold on_consume.
    destruct (match rooms st !! roomName with Some _ => _ | None => _ end);
      [|done].
    destruct (find_recv_transport _ _) as [t|]; [|done].
    destruct (consume _ _ _ _ _) as [[c w]|e]; [|done].
    simpl. intros Hin. apply list_elem_of_singleton in Hin. discriminate.
  - intros Hin. by apply elem_of_nil in Hin.
  - unfold on_disconnect. simpl.
    destruct (truthy (peerRooms st !! sid)); simpl; intros Hin;
      by apply elem_of_nil in Hin.
Qed.

Lemma error_reply_leaves_state_witness :
  (handle (E := RefEngine.engine) "A" (ConnectTransport "transport-9" "dtls")
     (Scenario.after Scenario.negotiate)).1
  = Scenario.after Scenario.negotiate.
Proof.
  apply (error_reply_leaves_state (E := RefEngine.engine) "A"
           (ConnectTransport "transport-9" "dtls")
           (Scenario.after Scenario.negotiate) "Transport not found").
  vm_compute. apply list_elem_of_here.
Defined.

(** ** The transport table *)

Lemma JsMap_get_set_eq (k : string) (v : WebRtcTransport) (m : JsMap.t) :
  JsMap.get k (JsMap.set k v m) = Some v.
Proof.
  induction m as [|[k' v'] m IH]; simpl.
  - by destruct (decide (k = k)).
  - destruct (decide (k' = k)) as [->|Hne]; simpl.
    + by destruct (decide (k = k)).
    + by destruct (decide (k' = k)).
Qed.

Lemma JsMap_get_set_ne (k k0 : string) (v : WebRtcTransport) (m : JsMap.t) :
  k0 <> k -> JsMap.get k0 (JsMap.set k v m) = JsMap.get k0 m.
Proof.
  intros Hne. induction m as [|[k' v'] m IH]; simpl.
  - destruct (decide (k = k0)); [congruence|done].
  - destruct (decide (k' = k)) as [->|Hne']; simpl.
    + destruct (decide (k = k0)); [congruence|done].
    + destruct (decide (k' = k0)); [done|apply IH].
Qed.

Lemma JsMap_get_delete_ne (k k0 : string) (m : JsMap.t) :
  k0 <> k -> JsMap.get k0 (JsMap.delete k m) = JsMap.get k0 m.
Proof.
  intros Hne. induction m as [|[k' v'] m IH]; simpl; [done|].
  destruct (decide (k' = k)) as [->|Hne']; simpl.
  - destruct (decide (k = k0)); [congruence|done].
  - destruct (decide (k' = k0)); [done|apply IH].
Qed.

Lemma JsMap_get_None (k : string) (m : JsMap.t) :
  k ∉ transport_ids m -> JsMap.get k m = None.
Proof.
  induction m as [|[k' v'] m IH]; simpl; [done|].
  intros Hk. apply not_elem_of_cons in Hk as [Hne Hk].
  destruct (decide (k' = k)); [congruence|by apply IH].
Qed.

Lemma JsMap_get_delete_eq (k : string) (m : JsMap.t) :
  NoDup (transport_ids m) -> JsMap.get k (JsMap.delete k m) = None.
Proof.
  induction m as [|[k' v'] m IH]; simpl; [done|].
  intros Hnd. apply NoDup_cons in Hnd as [Hk Hnd].
  destruct (decide (k' = k)) as [->|Hne]; simpl.
  - by apply JsMap_get_None.
  - destruct (decide (k' = k)); [congruence|by apply IH].
Qed.

Lemma JsMap_get_entry (k : string) (v : WebRtcTransport) (m : JsMap.t) :
  JsMap.get k m = Some v -> (k, v) ∈ m.
Proof.
  induction m as [|[k' v'] m IH]; simpl; [done|].
  destruct (decide (k' = k)) as [->|Hne].
  - intros [= ->]. by left.
  - intros Hget. right. by apply IH.
Qed.

Lemma JsMap_set_ids (k : string) (v : WebRtcTransport) (m : JsMap.t) :
  transport_ids (JsMap.set k v m) =
    if decide (k ∈ transport_ids m) then transport_ids m
    else transport_ids m ++ [k].
Proof.
  induction m as [|[k' v'] m IH]; simpl.
  - destruct (decide (k ∈ [])) as [Hin|_]; [by apply elem_of_nil in Hin|done].
  - destruct (decide (k' = k)) as [->|Hne]; simpl.
    + destruct (decide (k ∈ k :: transport_ids m)) as [_|Hn]; [done|].
      exfalso. apply Hn. by left.
    + unfold transport_ids in *. rewrite IH.
      destruct (decide (k ∈ m.*1)) as [Hin|Hn].
      * destruct (decide (k ∈ k' :: m.*1)) as [_|Hn']; [done|].
        exfalso. apply Hn'. by right.
      * destruct (decide (k ∈ k' :: m.*1)) as [Hin'|_]; [|done].
        apply elem_of_cons in Hin' as [->|Hin']; done.
Qed.

Lemma JsMap_delete_sublist (k : string) (m : JsMap.t) :
  JsMap.delete k m `sublist_of` m.
Proof.
  induction m as [|[k' v'] m IH]; simpl; [done|].
  destruct (decide (k' = k)).
  - by apply sublist_cons.
  - by apply sublist_skip.
Qed.

Lemma transports_wf_set (t : WebRtcTransport) (m : JsMap.t) :
  transports_wf m -> transports_wf (JsMap.set (transport_id t) t m).
Proof.
  intros [Hnd Hkeys]. split.
  - rewrite JsMap_set_ids. case_decide; [done|].
    apply NoDup_app. split; [done|]. split; [|apply NoDup_singleton].
    intros x Hx Hx'. apply list_elem_of_singleton in Hx' as ->. done.
  - clear Hnd. induction m as [|[k' v'] m IH]; simpl.
    + by repeat constructor.
    + apply Forall_cons in Hkeys as [Hk Hkeys].
      destruct (decide (k' = transport_id t)).
      * by constructor.
      * constructor; [done|by apply IH].
Qed.

Lemma transports_wf_delete (k : string) (m : JsMap.t) :
  transports_wf m -> transports_wf (JsMap.delete k m).
Proof.
  intros [Hnd Hkeys]. pose proof (JsMap_delete_sublist k m) as Hsub. split.
  - eapply sublist_NoDup; [exact Hnd|]. by apply fmap_sublist.
  - rewrite Forall_forall in *. intros kv Hin. apply Hkeys.
    eapply elem_of_submseteq; [exact Hin|]. by apply sublist_submseteq.
Qed.

Section Transports.
Context `{E : Engine}.

(** Only [createWebRtcTransport] adds to the table and only the
    [dtlsstatechange] listener removes from it. *)
Lemma step_transports (i : Input) (st : State) :
  transports (step i st).1 = transports st
  \/ (exists sid roomName isProd router t w,
        i = FromSocket sid (CreateWebRtcTransport roomName isProd)
        /\ rooms st !! roomName = Some router
        /\ createWebRtcTransport (engine st) router (mkAppData sid isProd)
           = Ok (t, w)
        /\ transports (step i st).1
           = JsMap.set (transport_id t) t (transports st))
  \/ (exists transportId,
        i = DtlsStateChange transportId dtls_closed
        /\ transports (step i st).1 = JsMap.delete transportId (transports st)).
Proof.
  destruct i as [sid req|transportId s].
  - destruct req; simpl.
    + by left.
    + left. unfold on_join.
      destruct (2 <=? join_count (join_enqueue sid st)); [|done].
      unfold join_pop.
      destruct (Redis.rPop (pool (join_enqueue sid st))) as [r1 l1].
      cbn -[Redis.rPop].
      destruct (Redis.rPop l1) as [r2 l2]. unfold join_pair.
      destruct (truthy r1), (truthy r2); try done.
      cbn -[Redis.rPop].
      by destruct (createRouter (engine st) mediaCodecs) as [[router w]|e].
    + left. unfold on_getRouterRtpCapabilities.
      by destruct (rooms st !! roomName).
    + unfold on_createWebRtcTransport.
      destruct (rooms st !! roomName) as [router|] eqn:Hroom; [|by left].
      destruct (createWebRtcTransport _ _ _) as [[t w]|e] eqn:Hc; [|by left].
      right. left. by exists sid, roomName, isProducer0, router, t, w.
    + left. unfold on_connectTransport.
      destruct (JsMap.get _ _) as [t|]; [|done].
      by destruct (connect _ _ _).
    + left. unfold on_produce.
      destruct (JsMap.get _ _) as [t|]; [|done].
      by destruct (produce _ _ _ _) as [[p w]|e].
    + left. unfold on_consume.
      destruct (match rooms st !! roomName with Some _ => _ | None => _ end);
        [|done].
      destruct (find_recv_transport _ _) as [t|]; [|done].
      by destruct (consume _ _ _ _ _) as [[c w]|e].
    + by left.
    + left. unfold on_disconnect. simpl.
      by destruct (truthy (peerRooms st !! sid)).
  - destruct s; simpl; try by left.
    right. right. by exists transportId.
Qed.

Lemma run_transports_wf (tr : list Input) (st : State) :
  transports_wf (transports st) -> transports_wf (transports (run tr st).1).
Proof.
  revert st. induction tr as [|i tr IH]; intros st Hwf; [done|].
  simpl. specialize (IH (step i st).1).
  pose proof (step_transports i st) as Hstep.
  destruct (step i st) as [st1 o1]. simpl in *.
  destruct (run tr st1) as [st2 o2]. simpl in *. apply IH.
  destruct Hstep as [->|[(sid & rn & ip & router & t & w & _ & _ & _ & ->)
                        |(tid & _ & ->)]].
  - done.
  - by apply transports_wf_set.
  - by apply transports_wf_delete.
Qed.

Lemma reachable_transports_wf (tr : list Input) :
  transports_wf (transports (run tr initial).1).
Proof. apply run_transports_wf. split; constructor. Qed.

End Transports.

(** X4.  In every state the server can reach, the transport table holds
    no identifier twice and every transport is registered under its own
    identifier: a lookup by identifier returns the transport that carries
    it. *)
Theorem transports_keyed_by_id `{E : Engine} (tr : list Input) :
  NoDup (transport_ids (transports (run tr initial).1))
  /\ forall transportId t,
       JsMap.get transportId (transports (run tr initial).1) = Some t ->
       transport_id t = transportId.
Proof.
  destruct (reachable_transports_wf tr) as [Hnd Hkeys].
  split; [done|]. intros transportId t Hget.
  apply JsMap_get_entry in Hget. rewrite Forall_forall in Hkeys.
  by apply (Hkeys (transportId, t)).
Qed.

(** X5.  When [createWebRtcTransport] answers with transport parameters,
    the transport is registered under the identifier of the reply, it
    belongs to the requesting socket with the requested direction, every
    other identifier resolves as before, and [connectTransport] finds it. *)
Theorem createWebRtcTransport_registers `{E : Engine} (sid roomName : string)
    (isProd : bool) (st : State) (id ice candidates dtls : string) :
  (handle sid (CreateWebRtcTransport roomName isProd) st).2
    = [Reply (PTransport id ice candidates dtls)] ->
  let st' := (handle sid (CreateWebRtcTransport roomName isProd) st).1 in
  (exists t, JsMap.get id (transports st') = Some t
             /\ transport_id t = id
             /\ appData t = mkAppData sid isProd)
  /\ (forall other, other <> id ->
        JsMap.get other (transports st') = JsMap.get other (transports st))
  /\ (forall any d,
        replies (handle any (ConnectTransport id d) st').2
        <> [PError "Transport not found"]).
Proof.
  simpl. unfold on_createWebRtcTransport.
  destruct (rooms st !! roomName) as [router|]; [|discriminate].
  destruct (createWebRtcTransport _ _ _) as [[t w]|e] eqn:Hc; [|discriminate].
  simpl. intros [= <- _ _ _].
  split; [|split].
  - exists t. split; [apply JsMap_get_set_eq|]. split; [done|].
    by apply (createWebRtcTransport_appData _ _ _ _ _ Hc).
  - intros other Hne. by apply JsMap_get_set_ne.
  - intros any d. unfold on_connectTransport. simpl.
    rewrite JsMap_get_set_eq. by destruct (connect _ _ _).
Qed.

Lemma createWebRtcTransport_registers_witness :
  let st' := (handle (E := RefEngine.engine) "B"
                (CreateWebRtcTransport "room-A-B" false)
                (Scenario.after Scenario.produce_video)).1 in
  (exists t, JsMap.get "transport-3" (transports st') = Some t
             /\ transport_id t = "transport-3"
             /\ appData t = mkAppData "B" false)
  /\ (forall other, other <> "transport-3" ->
        JsMap.get other (transports st')
        = JsMap.get other (transports (Scenario.after Scenario.produce_video)))
  /\ (forall any d,
        replies (handle any (ConnectTransport "transport-3" d) st').2
        <> [PError "Transport not found"]).
Proof.
  apply (createWebRtcTransport_registers (E := RefEngine.engine) "B"
           "room-A-B" false (Scenario.after Scenario.produce_video)
           "transport-3" "ice" "candidates" "dtls").
  vm_compute. reflexivity.
Defined.

(** X6.  Once the [dtlsstatechange] listener has seen [closed] for a
    transport, the transport is gone from the table: [connectTransport] and
    [produce] on its identifier answer "Transport not found", while every
    other identifier resolves as before. *)
Theorem closed_transport_is_unregistered `{E : Engine} (tr : list Input)
    (transportId : string) :
  let before := (run tr initial).1 in
  let st := (run (tr ++ [DtlsStateChange transportId dtls_closed]) initial).1 in
  JsMap.get transportId (transports st) = None
  /\ (forall sid d,
        handle sid (ConnectTransport transportId d) st
        = (st, [Reply (PError "Transport not found")]))
  /\ (forall sid kind rtp,
        handle sid (Produce transportId kind rtp) st
        = (st, [Reply (PError "Transport not found")]))
  /\ (forall other, other <> transportId ->
        JsMap.get other (transports st) = JsMap.get other (transports before)).
Proof.
  intros before st.
  assert (Hst : transports st = JsMap.delete transportId (transports before)).
  { subst st before. rewrite run_app. simpl.
    by destruct (run tr initial) as [st1 o1]. }
  assert (Hget : JsMap.get transportId (transports st) = None).
  { rewrite Hst. apply JsMap_get_delete_eq.
    apply (reachable_transports_wf tr). }
  split; [done|]. split; [|split].
  - intros sid d. simpl. unfold on_connectTransport. by rewrite Hget.
  - intros sid kind rtp. simpl. unfold on_produce. by rewrite Hget.
  - intros other Hne. rewrite Hst. by apply JsMap_get_delete_ne.
Qed.

Lemma find_recv_transport_set (sid : string) (t : WebRtcTransport)
    (m : JsMap.t) :
  is_recv_transport_of sid t = true ->
  is_Some (find_recv_transport sid (JsMap.set (transport_id t) t m)).
Proof.
  intros Hrecv. unfold find_recv_transport, JsMap.values.
  induction m as [|[k' v'] m IH]; simpl.
  - rewrite Hrecv. by eexists.
  - destruct (decide (k' = transport_id t)); simpl.
    + rewrite Hrecv. by eexists.
    + destruct (is_recv_transport_of sid v'); [by eexists|apply IH].
Qed.

(** X7.  After [createWebRtcTransport] has answered a request for a
    receiving transport ([isProducer] false), the socket has a receive
    transport: [consume] will not answer "Receiving transport not found" for
    lack of one.  The transport [consume] picks always belongs to the
    consuming socket and is never a sending one. *)
Theorem recv_transport_available_after_create `{E : Engine}
    (sid roomName : string) (st : State) (id ice candidates dtls : string) :
  (handle sid (CreateWebRtcTransport roomName false) st).2
    = [Reply (PTransport id ice candidates dtls)] ->
  let st' := (handle sid (CreateWebRtcTransport roomName false) st).1 in
  is_Some (find_recv_transport sid (transports st'))
  /\ forall t, find_recv_transport sid (transports st') = Some t ->
       socketId (appData t) = sid /\ isProducer (appData t) = false.
Proof.
  simpl. unfold on_createWebRtcTransport.
  destruct (rooms st !! roomName) as [router|]; [|discriminate].
  destruct (createWebRtcTransport _ _ _) as [[t w]|e] eqn:Hc; [|discriminate].
  simpl. intros _. split.
  - apply find_recv_transport_set. unfold is_recv_transport_of.
    rewrite (createWebRtcTransport_appData _ _ _ _ _ Hc). simpl.
    by rewrite bool_decide_eq_true_2.
  - intros t' Hfind. unfold find_recv_transport in Hfind.
    apply find_some in Hfind as [_ Hrecv]. unfold is_recv_transport_of in Hrecv.
    apply andb_true_iff in Hrecv as [Hs Hp].
    apply bool_decide_eq_true_1 in Hs. by apply negb_true_iff in Hp.
Qed.

Lemma recv_transport_available_after_create_witness :
  let st' := (handle (E := RefEngine.engine) "B"
                (CreateWebRtcTransport "room-A-B" false)
                (Scenario.after Scenario.produce_video)).1 in
  is_Some (find_recv_transport "B" (transports st'))
  /\ forall t, find_recv_transport "B" (transports st') = Some t ->
       socketId (appData t) = "B" /\ isProducer (appData t) = false.
Proof.
  apply (recv_transport_available_after_create (E := RefEngine.engine) "B"
           "room-A-B" (Scenario.after Scenario.produce_video)
           "transport-3" "ice" "candidates" "dtls").
  vm_compute. reflexivity.
Defined.

(** X8.  [connectTransport] and [produce] have no [try]/[catch]: such a
    request is left without any reply exactly when its transport is
    registered and the engine call throws. *)
Theorem unanswered_connect_and_produce `{E : Engine} (sid transportId : string)
    (st : State) :
  (forall d,
     replies (handle sid (ConnectTransport transportId d) st).2 = []
     <-> exists t e, JsMap.get transportId (transports st) = Some t
                     /\ connect (engine st) t d = Throw e)
  /\ (forall kind rtp,
        replies (handle sid (Produce transportId kind rtp) st).2 = []
        <-> exists t e, JsMap.get transportId (transports st) = Some t
                        /\ produce (engine st) t kind rtp = Throw e).
Proof.
  split.
  - intros d. simpl. unfold on_connectTransport.
    destruct (JsMap.get transportId (transports st)) as [t|]; simpl.
    + destruct (connect (engine st) t d) as [w|e] eqn:Hc; simpl.
      * split; [discriminate|]. intros (t' & e & [= <-] & He). congruence.
      * split; [|done]. intros _. by exists t, e.
    + split; [discriminate|]. intros (t & e & Hget & _). discriminate.
  - intros kind rtp. simpl. unfold on_produce.
    destruct (JsMap.get transportId (transports st)) as [t|]; simpl.
    + destruct (produce (engine st) t kind rtp) as [[p w]|e] eqn:Hp; simpl.
      * split.
        -- destruct (truthy (peerRooms st !! sid)); discriminate.
        -- intros (t' & e & [= <-] & He). congruence.
      * split; [|done]. intros _. by exists t, e.
    + split; [discriminate|]. intros (t & e & Hget & _). discriminate.
Qed.

Lemma unanswered_connect_and_produce_witness :
  let t := mkTransport "t1" "ice" "candidates" "dtls" (mkAppData "A" true) in
  let st := set_transports [("t1", t)] (initial (E := DeadEngine.engine)) in
  replies (handle "A" (ConnectTransport "t1" "dtls") st).2 = []
  /\ replies (handle "A" (Produce "t1" video [Scenario.vp8]) st).2 = [].
Proof.
  intros t st. split.
  - apply (proj1 (unanswered_connect_and_produce (E := DeadEngine.engine)
                    "A" "t1" st)).
    by exists t, (JsError "worker closed").
  - apply (proj2 (unanswered_connect_and_produce (E := DeadEngine.engine)
                    "A" "t1" st)).
    by exists t, (JsError "worker closed").
Defined.

(** ** Matchmaking, continued *)

Section Index.
Context `{E : Engine}.

(** [join] either pairs, or leaves both tables alone. *)
Lemma on_join_index (sid : string) (cb : bool) (st : State) :
  (rooms (on_join sid cb st).1 = rooms st
   /\ peerRooms (on_join sid cb st).1 = peerRooms st
   /\ forall p x r, EmitTo p x (EvMatched r) ∉ (on_join sid cb st).2)
  \/ (pairing sid st (on_join sid cb st).1
      /\ forall p x r, EmitTo p x (EvMatched r) ∈ (on_join sid cb st).2 ->
           is_Some (rooms (on_join sid cb st).1 !! r)).
Proof.
  unfold on_join.
  destruct (2 <=? join_count (join_enqueue sid st)).
  2:{ left. split; [done|]. split; [done|]. intros p x r Hin.
      unfold join_waiting in Hin. destruct cb; simpl in Hin.
      - apply list_elem_of_singleton in Hin. discriminate.
      - by apply elem_of_nil in Hin. }
  unfold join_pop, join_enqueue, Redis.lPush. cbn -[Redis.rPop].
  destruct (Redis.rPop (sid :: pool st)) as [r1 l1] eqn:H1.
  cbn -[Redis.rPop].
  destruct (Redis.rPop l1) as [r2 l2] eqn:H2.
  unfold join_pair.
  destruct (truthy r1) as [p1|] eqn:Hp1.
  2:{ left. split; [done|]. split; [done|]. intros p x r Hin.
      by apply elem_of_nil in Hin. }
  destruct (truthy r2) as [p2|] eqn:Hp2.
  2:{ left. split; [done|]. split; [done|]. intros p x r Hin.
      by apply elem_of_nil in Hin. }
  cbn -[Redis.rPop].
  destruct (createRouter (engine st) mediaCodecs) as [[router w]|e].
  2:{ left. split; [done|]. split; [done|]. intros p x r Hin.
      apply list_elem_of_singleton in Hin. discriminate. }
  right. cbn -[Redis.rPop]. split.
  - exists p1, p2, router. cbn -[Redis.rPop].
    apply truthy_Some in Hp1 as ->. apply truthy_Some in Hp2 as ->.
    apply rPop_elem in H1. apply rPop_elem in H2. subst l1.
    rewrite H1, <- app_assoc. done.
  - intros p x r Hin.
    assert (r = roomName_of p1 p2) as ->.
    { apply elem_of_cons in Hin as [[= _ _ ->]|Hin]; [done|].
      apply list_elem_of_singleton in Hin. by injection Hin as _ _ ->. }
    rewrite lookup_insert_eq. by eexists.
Qed.

Definition index_wf (st : State) : Prop :=
  forall p r, peerRooms st !! p = Some r -> is_Some (rooms st !! r).

Lemma pairing_index_wf (sid : string) (st st' : State) :
  index_wf st -> pairing sid st st' -> index_wf st'.
Proof.
  intros Hwf (p1 & p2 & router & _ & Hrooms & Hpeers) p r Hl.
  rewrite Hpeers in Hl. rewrite Hrooms.
  rewrite !lookup_insert in Hl. rewrite lookup_insert.
  destruct (decide (roomName_of p1 p2 = r)); [by eexists|].
  destruct (decide (p2 = p)); [congruence|].
  destruct (decide (p1 = p)); [congruence|].
  by apply (Hwf p r).
Qed.

Lemma step_index_wf (i : Input) (st : State) :
  (index_wf st -> index_wf (step i st).1)
  /\ (forall p x r, EmitTo p x (EvMatched r) ∈ (step i st).2 ->
        is_Some (rooms (step i st).1 !! r)).
Proof.
  destruct i as [sid req|transportId s].
  - destruct req; simpl.
    + split; [done|]. intros p' x' r' Hin. by apply elem_of_nil in Hin.
    + destruct (on_join_index sid callback st)
        as [(Hr & Hp & Hno)|[Hpair Hm]].
      * split; [|intros p' x' r' Hin; by destruct (Hno p' x' r')].
        intros Hwf p' r'. rewrite Hr, Hp. apply Hwf.
      * split; [|done]. intros Hwf. by eapply pairing_index_wf.
    + unfold on_getRouterRtpCapabilities.
      destruct (rooms st !! roomName); (split; [done|]); intros p' x' r' Hin.
      * apply list_elem_of_singleton in Hin. discriminate.
      * by apply elem_of_nil in Hin.
    + unfold on_createWebRtcTransport.
      destruct (rooms st !! roomName) as [router|].
      * destruct (createWebRtcTransport _ _ _) as [[t w]|e];
          (split; [done|]); intros p' x' r' Hin;
          apply list_elem_of_singleton in Hin; discriminate.
      * split; [done|]. intros p' x' r' Hin.
        apply list_elem_of_singleton in Hin. discriminate.
    + unfold on_connectTransport.
      destruct (JsMap.get _ _) as [t|].
      * destruct (connect _ _ _); (split; [done|]); intros p' x' r' Hin;
          apply list_elem_of_singleton in Hin; discriminate.
      * split; [done|]. intros p' x' r' Hin.
        apply list_elem_of_singleton in Hin. discriminate.
    + unfold on_produce.
      destruct (JsMap.get _ _) as [t|].
      * destruct (produce _ _ _ _) as [[pr w]|e].
        -- split; [done|]. intros p' x' r' Hin.
           destruct (truthy (peerRooms (set_engine w st) !! sid));
             simpl in Hin;
             repeat (apply elem_of_cons in Hin as [Hin|Hin]; [discriminate|]);
             by apply elem_of_nil in Hin.
        -- split; [done|]. intros p' x' r' Hin.
           apply list_elem_of_singleton in Hin. discriminate.
      * split; [done|]. intros p' x' r' Hin.
        apply list_elem_of_singleton in Hin. discriminate.
    + unfold on_consume.
      destruct (match rooms st !! roomName with Some _ => _ | None => _ end).
      * destruct (find_recv_transport _ _) as [t|].
        -- destruct (consume _ _ _ _ _) as [[c w]|e];
             (split; [done|]); intros p' x' r' Hin;
             apply list_elem_of_singleton in Hin; discriminate.
        -- split; [done|]. intros p' x' r' Hin.
           apply list_elem_of_singleton in Hin. discriminate.
      * split; [done|]. intros p' x' r' Hin.
        apply list_elem_of_singleton in Hin. discriminate.
    + split; [done|]. intros p' x' r' Hin. by apply elem_of_nil in Hin.
    + unfold on_disconnect. simpl.
      destruct (truthy (peerRooms st !! sid)); simpl.
      * split.
        -- intros Hwf p' r'. simpl. rewrite lookup_delete.
           case_decide; [done|apply Hwf].
        -- intros p' x' r' Hin. apply list_elem_of_singleton in Hin. discriminate.
      * split; [done|]. intros p' x' r' Hin. by apply elem_of_nil in Hin.
  - split.
    + by destruct s.
    + intros p' x' r' Hin. destruct s; by apply elem_of_nil in Hin.
Qed.

Lemma run_index_wf (tr : list Input) (st : State) :
  index_wf st -> index_wf (run tr st).1.
Proof.
  revert st. induction tr as [|i tr IH]; intros st Hwf; [done|].
  simpl. specialize (IH (step i st).1 (proj1 (step_index_wf i st) Hwf)).
  destruct (step i st) as [st1 o1]. simpl in *.
  by destruct (run tr st1) as [st2 o2].
Qed.

Lemma run_matched_room (tr : list Input) (st : State) (p r : string)
    (x : option string) :
  EmitTo p x (EvMatched r) ∈ (run tr st).2 ->
  is_Some (rooms (run tr st).1 !! r).
Proof.
  revert st. induction tr as [|i tr IH]; intros st; simpl.
  - intros Hin. by apply elem_of_nil in Hin.
  - pose proof (proj2 (step_index_wf i st) p x r) as Hstep.
    pose proof (run_rooms_mono tr (step i st).1) as Hmono.
    specialize (IH (step i st).1).
    destruct (step i st) as [st1 o1]. simpl in *.
    destruct (run tr st1) as [st2 o2]. simpl in *.
    intros Hin. apply elem_of_app in Hin as [Hin|Hin]; [|by apply IH].
    apply elem_of_dom. apply Hmono. apply elem_of_dom. by apply Hstep.
Qed.

End Index.

(** X9.  In every state the server can reach, the room recorded for a
    peer is a room of the room table. *)
Theorem peer_room_is_registered `{E : Engine} (tr : list Input)
    (peer room : string) :
  peerRooms (run tr initial).1 !! peer = Some room ->
  is_Some (rooms (run tr initial).1 !! room).
Proof.
  apply (run_index_wf tr initial). intros p r. simpl.
  by rewrite lookup_empty.
Qed.

Lemma peer_room_is_registered_witness :
  is_Some (rooms (Scenario.after Scenario.negotiate) !! "room-A-B").
Proof.
  apply (peer_room_is_registered (E := RefEngine.engine) Scenario.negotiate
           "B" "room-A-B").
  vm_compute. reflexivity.
Defined.

(** X10.  A room announced by a [matched] event exists and keeps
    existing: at any later point, [getRouterRtpCapabilities] for that room
    name is answered, once, with the capabilities of the room's router, and
    changes nothing. *)
Theorem matched_room_has_capabilities `{E : Engine} (tr : list Input)
    (peer room : string) (except : option string) :
  EmitTo peer except (EvMatched room) ∈ (run tr initial).2 ->
  exists router,
    rooms (run tr initial).1 !! room = Some router
    /\ forall sid,
         handle sid (GetRouterRtpCapabilities room) (run tr initial).1
         = ((run tr initial).1,
            [Reply (PRtpCapabilities (rtpCapabilities router))]).
Proof.
  intros Hin. destruct (run_matched_room tr initial peer room except Hin)
    as [router Hroom].
  exists router. split; [done|]. intros sid. simpl.
  unfold on_getRouterRtpCapabilities. by rewrite Hroom.
Qed.

Lemma matched_room_has_capabilities_witness :
  exists router,
    rooms (Scenario.after Scenario.negotiate) !! "room-A-B" = Some router
    /\ forall sid,
         handle sid (GetRouterRtpCapabilities "room-A-B")
           (Scenario.after Scenario.negotiate)
         = (Scenario.after Scenario.negotiate,
            [Reply (PRtpCapabilities (rtpCapabilities router))]).
Proof.
  apply (matched_room_has_capabilities (E := RefEngine.engine)
           Scenario.negotiate "B" "room-A-B" None).
  vm_compute. apply list_elem_of_further, list_elem_of_further,
    list_elem_of_here.
Defined.

Section Waiting.
Context `{E : Engine}.

Lemma on_join_pool_second (a b : string) (cb : bool) (st : State) :
  pool st = [a] -> pool (on_join b cb st).1 = [].
Proof.
  intros Hp. unfold on_join, join_count, join_enqueue, join_pop. simpl.
  rewrite Hp. simpl. by rewrite join_pair_pool.
Qed.

Lemma lRem_first_length (n : nat) (v : string) (l : list string) :
  length (Redis.lRem_first n v l) <= length l.
Proof.
  revert n. induction l as [|x l IH]; intros n; simpl; [done|].
  destruct n as [|n]; [done|].
  case_decide; simpl.
  - specialize (IH n). lia.
  - specialize (IH (S n)). lia.
Qed.

Lemma step_pool_length (i : Input) (st : State) :
  length (pool st) <= 1 -> length (pool (step i st).1) <= 1.
Proof.
  intros Hlen. destruct i as [sid req|transportId s].
  - destruct req; simpl; try done.
    + destruct (pool st) as [|a [|b l]] eqn:Hp; simpl in Hlen; try lia.
      * by rewrite (on_join_first sid callback st Hp).
      * rewrite (on_join_pool_second a sid callback st Hp). simpl. lia.
    + unfold on_getRouterRtpCapabilities. by destruct (rooms st !! roomName).
    + unfold on_createWebRtcTransport.
      destruct (rooms st !! roomName) as [router|]; [|done].
      by destruct (createWebRtcTransport _ _ _) as [[t w]|e].
    + unfold on_connectTransport.
      destruct (JsMap.get _ _) as [t|]; [|done].
      by destruct (connect _ _ _).
    + unfold on_produce.
      destruct (JsMap.get _ _) as [t|]; [|done].
      by destruct (produce _ _ _ _) as [[p w]|e].
    + unfold on_consume.
      destruct (match rooms st !! roomName with Some _ => _ | None => _ end);
        [|done].
      destruct (find_recv_transport _ _) as [t|]; [|done].
      by destruct (consume _ _ _ _ _) as [[c w]|e].
    + pose proof (on_disconnect_pool sid st) as Hp. simpl in Hp. rewrite Hp.
      apply (Nat.le_trans _ (length (pool st))); [|done].
      apply (lRem_first_length 1 sid (pool st)).
  - simpl. by destruct s.
Qed.

Lemma joins_app (l1 l2 : list string) :
  joins (l1 ++ l2) = joins l1 ++ joins l2.
Proof. unfold joins. apply map_app. Qed.

End Waiting.

(** X11.  As long as the handlers run one after the other, at most one
    socket is waiting at any time: whatever the requests and disconnects,
    the pool never holds more than one identifier between two handlers. *)
Theorem at_most_one_waiting `{E : Engine} (tr : list Input) :
  length (pool (run tr initial).1) <= 1.
Proof.
  assert (Hgen : forall st, length (pool st) <= 1 ->
                            length (pool (run tr st).1) <= 1).
  { induction tr as [|i tr IH]; intros st Hlen; [done|].
    simpl. specialize (IH (step i st).1 (step_pool_length i st Hlen)).
    destruct (step i st) as [st1 o1]. simpl in *.
    by destruct (run tr st1) as [st2 o2]. }
  apply Hgen. simpl. lia.
Qed.

(** X12.  When an odd number of sockets join one after the other, the
    last one is told to wait: it is alone in the pool, it has no room, and
    its request is answered with [{ status: 'waiting' }]. *)
Theorem odd_joiner_waits `{E : Engine} (peers : list string) (last : string) :
  router_available ->
  Nat.Even (length peers) ->
  Forall (fun p => p <> "") peers ->
  last ∉ peers ->
  exists st outs,
    run (joins (peers ++ [last])) initial = (st, outs ++ [Reply PStatusWaiting])
    /\ pool st = [last]
    /\ peerRooms st !! last = None.
Proof.
  intros Hav Heven Hne Hlast.
  pose proof (fifo_pairs_flatten peers Heven) as Hflat.
  destruct (run_joins_pairs (fifo_pairs peers) initial Hav eq_refl)
    as (st1 & o1 & Hrun & Hpool & Hpr & _ & _).
  { by rewrite Hflat. }
  rewrite Hflat in Hrun.
  rewrite joins_app, run_app, Hrun. simpl.
  rewrite (on_join_first last true st1 Hpool). simpl.
  exists (set_pool [last] st1), o1. split; [done|]. split; [done|].
  simpl. rewrite Hpr. rewrite assign_other by (by rewrite Hflat).
  apply lookup_empty.
Qed.

Lemma odd_joiner_waits_witness :
  exists st outs,
    run (E := RefEngine.engine) (joins (["A"; "B"] ++ ["C"])) initial
      = (st, outs ++ [Reply PStatusWaiting])
    /\ pool st = ["C"]
    /\ peerRooms st !! "C" = None.
Proof.
  apply (odd_joiner_waits (E := RefEngine.engine) ["A"; "B"] "C").
  - intros w. eexists _, _. reflexivity.
  - exists 1. reflexivity.
  - repeat constructor; discriminate.
  - intros Hin. apply elem_of_cons in Hin as [Hin|Hin]; [discriminate|].
    apply list_elem_of_singleton in Hin. discriminate.
Defined.

(** X13.  A socket that joins an empty pool and disconnects before anyone
    else joins is taken out of the pool: the next socket to join waits
    instead of being paired with the one that left, and nobody is notified
    of anything. *)
Theorem leaver_is_not_paired `{E : Engine} (a b : string) (cb cb' : bool)
    (st : State) :
  pool st = [] ->
  peerRooms st !! a = None ->
  let '(st', outs) :=
    run [FromSocket a (Join cb); FromSocket a Disconnect;
         FromSocket b (Join cb')] st in
  pool st' = [b]
  /\ rooms st' = rooms st
  /\ peerRooms st' = peerRooms st
  /\ emissions outs = []
  /\ outs = join_waiting cb ++ join_waiting cb'.
Proof.
  intros Hpool Hroom. cbn [run step handle].
  rewrite (on_join_first a cb st Hpool).
  set (st1 := sio_leave_all a (set_pool [a] st)).
  assert (Hd : on_disconnect a st1 = (set_pool [] st1, [])).
  { unfold on_disconnect. simpl. rewrite Hroom. simpl.
    by destruct (decide (a = a)). }
  rewrite Hd, (on_join_first b cb' (set_pool [] st1) eq_refl).
  simpl. rewrite app_nil_r. repeat split.
  unfold join_waiting. by destruct cb, cb'.
Qed.

Lemma leaver_is_not_paired_witness :
  let '(st', outs) :=
    run (E := RefEngine.engine)
      [FromSocket "A" (Join true); FromSocket "A" Disconnect;
       FromSocket "B" (Join true)] initial in
  pool st' = ["B"]
  /\ rooms st' = rooms (initial (E := RefEngine.engine))
  /\ peerRooms st' = peerRooms (initial (E := RefEngine.engine))
  /\ emissions outs = []
  /\ outs = join_waiting true ++ join_waiting true.
Proof.
  apply (leaver_is_not_paired (E := RefEngine.engine) "A" "B" true true initial).
  - reflexivity.
  - reflexivity.
Defined.

(** X14.  If the engine cannot create a router when two sockets are
    paired, both are lost: they have been taken out of the pool, no room and
    no membership is recorded, and neither a [matched] event nor a reply is
    sent; the handler's promise rejects. *)
Theorem pair_lost_when_router_fails `{E : Engine} (a b : string) (cb : bool)
    (st : State) (e : Thrown) :
  pool st = [a] -> a <> "" -> b <> "" ->
  createRouter (engine st) mediaCodecs = Throw e ->
  handle b (Join cb) st = (set_pool [] st, [Unhandled e]).
Proof.
  intros Hpool Ha Hb Hfail.
  simpl. unfold on_join, join_count, join_enqueue, join_pop, join_pair.
  simpl. rewrite Hpool. simpl.
  destruct (decide (a = "")) as [|_]; [done|].
  destruct (decide (b = "")) as [|_]; [done|].
  by rewrite Hfail.
Qed.

Lemma pair_lost_when_router_fails_witness :
  let st := set_pool ["A"] (initial (E := DeadEngine.engine)) in
  handle "B" (Join true) st
  = (set_pool [] st, [Unhandled (JsError "worker closed")]).
Proof.
  intros st.
  apply (pair_lost_when_router_fails (E := DeadEngine.engine) "A" "B"
           true st (JsError "worker closed")).
  - reflexivity.
  - discriminate.
  - discriminate.
  - reflexivity.
Defined.

(** X15.  Whatever the interleaving of the [join] handlers' Redis commands
    and of disconnects, when the joining sockets are pairwise distinct and
    not queued already, no socket is the target of two [matched] events and
    a matched socket is no longer in the pool. *)
Theorem no_socket_matched_twice `{E : Engine} (st0 : State)
    (peers : list string) (s : list Action) (c : Config) :
  NoDup (pool st0) ->
  NoDup peers ->
  (forall p, p ∈ peers -> p ∉ pool st0) ->
  run_schedule s (spawn st0 peers) = Some c ->
  NoDup (matched_peers (c_out c))
  /\ forall p, p ∈ matched_peers (c_out c) -> p ∉ pool (c_state c).
Proof.
  intros Hnd Hpeers Hfresh Hrun.
  assert (Hinv : accounted_inv c).
  { apply (run_schedule_accounted_inv s (spawn st0 peers)); [|done].
    by apply spawn_accounted_inv. }
  destruct Hinv as (Hacc & _). unfold accounted in Hacc.
  apply NoDup_app in Hacc as (_ & Hdisj & Hacc).
  apply NoDup_app in Hacc as (_ & _ & Hacc).
  split; [done|]. intros p Hp Hin. apply (Hdisj p Hin).
  apply elem_of_app. by right.
Qed.

Lemma no_socket_matched_twice_witness :
  exists c,
    run_schedule (E := RefEngine.engine) race_schedule
      (spawn initial ["A"; "B"; "C"; "D"]) = Some c
    /\ NoDup (matched_peers (c_out c))
    /\ forall p, p ∈ matched_peers (c_out c) -> p ∉ pool (c_state c).
Proof.
  assert (Hsome : match run_schedule (E := RefEngine.engine) race_schedule
                           (spawn initial ["A"; "B"; "C"; "D"]) with
                   | Some _ => true
                   | None => false
                   end = true)
    by (vm_compute; reflexivity).
  destruct (run_schedule (E := RefEngine.engine) race_schedule
              (spawn initial ["A"; "B"; "C"; "D"])) as [c|] eqn:Hrun;
    [|discriminate Hsome].
  exists c. split; [reflexivity|].
  apply (no_socket_matched_twice (E := RefEngine.engine) initial
           ["A"; "B"; "C"; "D"] race_schedule c).
  - constructor.
  - apply (bool_decide_unpack (NoDup ["A"; "B"; "C"; "D"])).
    vm_compute. exact I.
  - intros p _. apply not_elem_of_nil.
  - exact Hrun.
Defined.

(** ** Delivery *)

Section Delivery.
Context `{E : Engine}.

(** Only a connection and a disconnection change the Socket.IO rooms. *)
Lemma step_sio_cases (i : Input) (st : State) :
  sio (step i st).1 = sio st
  \/ (exists sid, i = FromSocket sid Connection
                  /\ sio (step i st).1 = <[sid := {[sid]}]> (sio st))
  \/ (exists sid, i = FromSocket sid Disconnect
                  /\ sio (step i st).1
                     = (fun members : gset string => members ∖ {[sid]})
                         <$> sio st).
Proof.
  destruct i as [sid req|transportId s].
  - destruct req; simpl.
    + right. left. by exists sid.
    + left. unfold on_join.
      destruct (2 <=? join_count (join_enqueue sid st)); [|done].
      unfold join_pop.
      destruct (Redis.rPop (pool (join_enqueue sid st))) as [r1 l1].
      cbn -[Redis.rPop].
      destruct (Redis.rPop l1) as [r2 l2]. unfold join_pair.
      destruct (truthy r1), (truthy r2); try done.
      cbn -[Redis.rPop].
      by destruct (createRouter (engine st) mediaCodecs) as [[router w]|e].
    + left. unfold on_getRouterRtpCapabilities.
      by destruct (rooms st !! roomName).
    + left. unfold on_createWebRtcTransport.
      destruct (rooms st !! roomName) as [router|]; [|done].
      by destruct (createWebRtcTransport _ _ _) as [[t w]|e].
    + left. unfold on_connectTransport.
      destruct (JsMap.get _ _) as [t|]; [|done].
      by destruct (connect _ _ _).
    + left. unfold on_produce.
      destruct (JsMap.get _ _) as [t|]; [|done].
      by destruct (produce _ _ _ _) as [[p w]|e].
    + left. unfold on_consume.
      destruct (match rooms st !! roomName with Some _ => _ | None => _ end);
        [|done].
      destruct (find_recv_transport _ _) as [t|]; [|done].
      by destruct (consume _ _ _ _ _) as [[c w]|e].
    + by left.
    + right. right. exists sid. split; [done|].
      unfold on_disconnect. simpl.
      by destruct (truthy (peerRooms st !! sid)).
  - left. simpl. by destruct s.
Qed.

Lemma run_in_own_room (tr : list Input) (st : State) (peer : string) :
  sio st !! peer = Some {[peer]} ->
  FromSocket peer Disconnect ∉ tr ->
  sio (run tr st).1 !! peer = Some {[peer]}.
Proof.
  revert st. induction tr as [|i tr IH]; intros st Hown Hno; [done|].
  apply not_elem_of_cons in Hno as [Hi Hno].
  simpl. specialize (IH (step i st).1).
  pose proof (step_sio_cases i st) as Hstep.
  destruct (step i st) as [st1 o1]. simpl in *.
  destruct (run tr st1) as [st2 o2]. simpl in *.
  apply IH; [|done].
  destruct Hstep as [->|[(sid & -> & ->)|(sid & -> & ->)]]; [done| |].
  - rewrite lookup_insert. case_decide; [by subst|done].
  - rewrite lookup_fmap, Hown. simpl. f_equal.
    assert (sid <> peer) by congruence. set_solver.
Qed.

End Delivery.

(** X16.  No handler ever puts a socket into another room than the one
    named after itself.  An event addressed to a room therefore reaches at
    most the socket whose own identifier is that room name, and never the
    excepted sender: the broadcasts addressed to a pairing room reach none of
    its members. *)
Theorem room_event_recipients `{E : Engine} (tr : list Input)
    (room sid : string) (except : option string) :
  sid ∈ recipients (run tr initial).1 room except ->
  sid = room /\ except <> Some sid.
Proof.
  intros Hin.
  assert (Hown : sio_own_rooms (run tr initial).1).
  { apply run_sio. intros r m. simpl. by rewrite lookup_empty. }
  unfold recipients in Hin. apply elem_of_difference in Hin as [Hin Hex].
  split.
  - destruct (sio (run tr initial).1 !! room) as [m|] eqn:Hm; simpl in Hin.
    + specialize (Hown room m Hm). set_solver.
    + set_solver.
  - intros ->. set_solver.
Qed.

Lemma room_event_recipients_witness :
  "B" ∈ recipients (run (E := RefEngine.engine) Scenario.negotiate initial).1
          "B" None
  /\ "B" = "B" /\ None <> Some "B".
Proof.
  assert (Hin : "B" ∈ recipients
                        (run (E := RefEngine.engine) Scenario.negotiate
                           initial).1 "B" None).
  { apply (bool_decide_unpack
             ("B" ∈ recipients
                      (run (E := RefEngine.engine) Scenario.negotiate
                         initial).1 "B" None)).
    vm_compute. exact I. }
  split; [exact Hin|].
  apply (room_event_recipients (E := RefEngine.engine) Scenario.negotiate
           "B" "B" None).
  exact Hin.
Defined.

(** X17.  An event addressed to a socket by its identifier, as [matched]
    is, reaches that socket and only it, from the moment it connected until
    it disconnects. *)
Theorem direct_event_reaches_connected_socket `{E : Engine}
    (before after : list Input) (peer : string) :
  FromSocket peer Disconnect ∉ after ->
  recipients (run (before ++ FromSocket peer Connection :: after) initial).1
    peer None
  = {[peer]}.
Proof.
  intros Hno. rewrite run_app. cbn [fst snd].
  set (st0 := (run before initial).1).
  assert (Hrun : (run (FromSocket peer Connection :: after) st0).1
                 = (run after (sio_connect peer st0)).1).
  { simpl. by destruct (run after (sio_connect peer st0)). }
  rewrite Hrun. unfold recipients.
  rewrite (run_in_own_room after (sio_connect peer st0) peer).
  - simpl. set_solver.
  - simpl. apply lookup_insert_eq.
  - done.
Qed.

Lemma direct_event_reaches_connected_socket_witness :
  recipients
    (run (E := RefEngine.engine)
       ([FromSocket "A" Connection]
          ++ FromSocket "B" Connection
          :: [FromSocket "A" (Join true); FromSocket "B" (Join true);
              FromSocket "A" Disconnect]) initial).1
    "B" None
  = {[ "B" ]}.
Proof.
  apply (direct_event_reaches_connected_socket (E := RefEngine.engine)
           [FromSocket "A" Connection]
           [FromSocket "A" (Join true); FromSocket "B" (Join true);
            FromSocket "A" Disconnect] "B").
  intros Hin. repeat (apply elem_of_cons in Hin as [Hin|Hin]; [discriminate|]).
  by apply elem_of_nil in Hin.
Defined.

(** ** Edge cases *)

Lemma JsMap_get_None_inv (k : string) (m : JsMap.t) :
  JsMap.get k m = None -> k ∉ transport_ids m.
Proof.
  induction m as [|[k' v'] m IH]; simpl; [intros _; apply not_elem_of_nil|].
  destruct (decide (k' = k)); [discriminate|].
  intros Hget. apply not_elem_of_cons. split; [congruence|by apply IH].
Qed.

Lemma find_recv_transport_set_fresh (sid k : string) (t t0 : WebRtcTransport)
    (m : JsMap.t) :
  k ∉ transport_ids m ->
  find_recv_transport sid m = Some t0 ->
  find_recv_transport sid (JsMap.set k t m) = Some t0.
Proof.
  unfold find_recv_transport, JsMap.values.
  induction m as [|[k' v'] m IH]; simpl; [discriminate|].
  intros Hk. apply not_elem_of_cons in Hk as [Hne Hk].
  destruct (decide (k' = k)); [congruence|]. simpl.
  destruct (is_recv_transport_of sid v'); [done|by apply IH].
Qed.

(** X18.  [consume] uses the receive transport the socket registered
    first: registering one more transport, under an identifier that is not
    in the table yet, does not change which transport [consume] picks. *)
Theorem consume_uses_oldest_recv_transport `{E : Engine}
    (sid other roomName : string) (isProd : bool) (st : State)
    (t0 : WebRtcTransport) (id ice candidates dtls : string) :
  find_recv_transport sid (transports st) = Some t0 ->
  (handle other (CreateWebRtcTransport roomName isProd) st).2
    = [Reply (PTransport id ice candidates dtls)] ->
  JsMap.get id (transports st) = None ->
  find_recv_transport sid
    (transports (handle other (CreateWebRtcTransport roomName isProd) st).1)
  = Some t0.
Proof.
  intros Hfind. simpl. unfold on_createWebRtcTransport.
  destruct (rooms st !! roomName) as [router|]; [|discriminate].
  destruct (createWebRtcTransport _ _ _) as [[t w]|e]; [|discriminate].
  simpl. intros [= <- _ _ _] Hfresh.
  apply find_recv_transport_set_fresh; [|done].
  by apply JsMap_get_None_inv.
Qed.

Lemma consume_uses_oldest_recv_transport_witness :
  find_recv_transport "B"
    (transports
       (handle (E := RefEngine.engine) "B"
          (CreateWebRtcTransport "room-A-B" false)
          (Scenario.after Scenario.negotiate)).1)
  = Some (mkTransport "transport-3" "ice" "candidates" "dtls"
            (mkAppData "B" false)).
Proof.
  apply (consume_uses_oldest_recv_transport (E := RefEngine.engine) "B" "B"
           "room-A-B" false (Scenario.after Scenario.negotiate) _
           "transport-5" "ice" "candidates" "dtls").
  - vm_compute. reflexivity.
  - vm_compute. reflexivity.
  - vm_compute. reflexivity.
Defined.

(** X19.  The disconnection of a socket that is neither queued nor in a
    room changes no table, leaves the pool as it is and notifies nobody. *)
Theorem disconnect_of_unknown_socket `{E : Engine} (sid : string)
    (st : State) :
  sid ∉ pool st ->
  peerRooms st !! sid = None ->
  handle sid Disconnect st = (sio_leave_all sid st, []).
Proof.
  intros Hpool Hroom. simpl. unfold on_disconnect. simpl.
  rewrite Hroom. simpl. unfold Redis.lRem.
  rewrite lRem_first_absent by done.
  by destruct st.
Qed.

Lemma disconnect_of_unknown_socket_witness :
  handle (E := RefEngine.engine) "C" Disconnect
    (Scenario.after Scenario.negotiate)
  = (sio_leave_all "C" (Scenario.after Scenario.negotiate), []).
Proof.
  apply (disconnect_of_unknown_socket (E := RefEngine.engine) "C"
           (Scenario.after Scenario.negotiate)).
  - vm_compute. apply not_elem_of_nil.
  - vm_compute. reflexivity.
Defined.
